(** * gotilert: a shallow embedding of the alert pipeline and its delivery client

  The development follows the packages of the repository:
  - [GoStrings]: the fragment of Go's [strings] and [strconv] the program calls;
  - [Main]: [cmd/gotilert/main.go] (severity resolution, label merge, summary);
  - [Gotify]: [internal/gotify/extras_annotations.go];
  - [Server]: [internal/server/message.go] (token extraction, forwarding ids);
  - [Alertmanager]: [internal/alertmanager/client.go] (retry, backoff,
    classification).

  Go strings are byte sequences: they are modelled as [string], whose
  characters are bytes.  Go's [int], [time.Duration] and [uint64] are
  modelled as [Z] with the wrap-around written out where the code computes
  with them.  A Go map read is a [gmap] lookup; a nil map reads as the empty
  map. *)

From Stdlib Require Import ZArith Lia Ascii String DecimalString.
From stdpp Require Import base option list gmap strings.

Local Open Scope Z_scope.
Set Warnings "-register-all".

(** ** Go's [strings] and [strconv] *)

Module GoStrings.

Definition bytes (s : string) : list ascii := String.list_ascii_of_string s.
Definition ofBytes (l : list ascii) : string := String.string_of_list_ascii l.

Definition byteOf (n : nat) : ascii := ascii_of_nat n.

(** [unicode.IsSpace], as the UTF-8 encodings of the runes it accepts:
    the six ASCII ones, U+0085, U+00A0, U+1680, U+2000..U+200A, U+2028,
    U+2029, U+202F, U+205F and U+3000. *)
Definition spaceEncodings : list (list ascii) :=
  map (map byteOf)
    [ [9]; [10]; [11]; [12]; [13]; [32];
      [194; 133]; [194; 160];
      [225; 154; 128];
      [226; 128; 128]; [226; 128; 129]; [226; 128; 130]; [226; 128; 131];
      [226; 128; 132]; [226; 128; 133]; [226; 128; 134]; [226; 128; 135];
      [226; 128; 136]; [226; 128; 137]; [226; 128; 138];
      [226; 128; 168]; [226; 128; 169]; [226; 128; 175];
      [226; 129; 159];
      [227; 128; 128] ]%nat.

Fixpoint stripPrefix (p l : list ascii) : option (list ascii) :=
  match p, l with
  | [], _ => Some l
  | a :: p', b :: l' => if Ascii.eqb a b then stripPrefix p' l' else None
  | _ :: _, [] => None
  end.

Fixpoint firstStrip (ps : list (list ascii)) (l : list ascii) : option (list ascii) :=
  match ps with
  | [] => None
  | p :: ps' =>
      match stripPrefix p l with
      | Some r => Some r
      | None => firstStrip ps' l
      end
  end.

(** One step of [TrimLeftFunc]: the text after a leading white-space rune. *)
Definition dropLeadingSpace (l : list ascii) : option (list ascii) :=
  firstStrip spaceEncodings l.

(** One step of [TrimRightFunc], on the reversed text: a white-space rune
    is last exactly when its encoding, read backwards, comes first. *)
Definition dropTrailingSpace (r : list ascii) : option (list ascii) :=
  firstStrip (map (@rev ascii) spaceEncodings) r.

Fixpoint trimWith (step : list ascii -> option (list ascii))
    (fuel : nat) (l : list ascii) : list ascii :=
  match fuel with
  | O => l
  | S fuel' =>
      match step l with
      | Some l' => trimWith step fuel' l'
      | None => l
      end
  end.

Definition trimLeft (l : list ascii) : list ascii :=
  trimWith dropLeadingSpace (length l) l.

Definition trimRight (l : list ascii) : list ascii :=
  rev (trimWith dropTrailingSpace (length l) (rev l)).

(** [strings.TrimSpace]. *)
Definition TrimSpace (s : string) : string :=
  ofBytes (trimRight (trimLeft (bytes s))).

(** [len(s)]: the number of bytes. *)
Definition len (s : string) : Z := Z.of_nat (String.length s).

(** [s[:n]] and [s[n:]] for an [n] within bounds. *)
Definition sliceTo (s : string) (n : nat) : string := ofBytes (take n (bytes s)).
Definition sliceFrom (s : string) (n : nat) : string := ofBytes (drop n (bytes s)).

(** [strings.HasPrefix]. *)
Definition HasPrefix (s p : string) : bool :=
  match stripPrefix (bytes p) (bytes s) with
  | Some _ => true
  | None => false
  end.

(** [strings.ToLower] on the ASCII letters.  The library function also
    lowers letters outside ASCII; the program only compares the result
    with an ASCII prefix, and no rune outside ASCII lowers to one of that
    prefix's bytes, so bytes from 128 up are left as they are. *)
Definition lowerByte (a : ascii) : ascii :=
  let n := nat_of_ascii a in
  if (65 <=? n)%nat && (n <=? 90)%nat then ascii_of_nat (n + 32) else a.

Definition ToLower (s : string) : string := ofBytes (map lowerByte (bytes s)).

(** [strconv.Itoa] and [strconv.FormatUint(_, 10)]. *)
Definition Itoa (n : Z) : string := NilZero.string_of_int (Z.to_int n).
Definition FormatUint (n : Z) : string := NilZero.string_of_uint (N.to_uint (Z.to_N n)).

(** [strings.ToLower], as far as comparing its result with ASCII text can
    tell: the ASCII letters are lowered, and so are the two runes outside
    ASCII that lower to an ASCII letter, U+0130 (bytes 196 176) to i and
    U+212A (bytes 226 132 170) to k.  The other bytes from 128 up are left
    as they are: Go turns them into runes outside ASCII as well. *)
Fixpoint lowerText (l : list ascii) : list ascii :=
  match l with
  | [] => []
  | a :: l' =>
      match stripPrefix (map byteOf [196; 176]%nat) l with
      | Some _ =>
          match l' with
          | _ :: rest => "i"%char :: lowerText rest
          | [] => [lowerByte a]
          end
      | None =>
          match stripPrefix (map byteOf [226; 132; 170]%nat) l with
          | Some _ =>
              match l' with
              | _ :: _ :: rest => "k"%char :: lowerText rest
              | _ => lowerByte a :: lowerText l'
              end
          | None => lowerByte a :: lowerText l'
          end
      end
  end.

Definition ToLowerText (s : string) : string := ofBytes (lowerText (bytes s)).

(** [strconv.Atoi]: an optional sign and decimal digits, within [int]. *)
Definition digitOf (a : ascii) : option Z :=
  let n := nat_of_ascii a in
  if (48 <=? n)%nat && (n <=? 57)%nat then Some (Z.of_nat (n - 48)) else None.

Fixpoint digitsValue (l : list ascii) (acc : Z) : option Z :=
  match l with
  | [] => Some acc
  | a :: l' =>
      match digitOf a with
      | Some d => digitsValue l' (acc * 10 + d)
      | None => None
      end
  end.

Definition Atoi (s : string) : option Z :=
  let magnitude (l : list ascii) :=
    match l with
    | [] => None
    | _ => digitsValue l 0
    end in
  let signed :=
    match bytes s with
    | [] => None
    | a :: l' =>
        if Ascii.eqb a "-" then Z.opp <$> magnitude l'
        else if Ascii.eqb a "+" then magnitude l'
        else magnitude (a :: l')
    end in
  match signed with
  | Some n => if (- 2 ^ 63 <=? n) && (n <=? 2 ^ 63 - 1) then Some n else None
  | None => None
  end.

(** The text of [n] bytes [a]. *)
Definition repeatByte (n : nat) (a : ascii) : string := ofBytes (repeat a n).

(** The text made of [n] copies of [s]. *)
Fixpoint repeatString (n : nat) (s : string) : string :=
  match n with
  | O => ""
  | S n' => s +:+ repeatString n' s
  end.

(** The spec's word "characters", for a text in UTF-8: every byte but the
    continuation bytes (10xxxxxx, 128 to 191) starts a character. *)
Definition startsCharacter (a : ascii) : bool :=
  let n := nat_of_ascii a in negb ((128 <=? n)%nat && (n <=? 191)%nat).

Definition characters (s : string) : nat :=
  length (List.filter startsCharacter (bytes s)).

(** [utf8.ValidString]: the bytes are a sequence of well-formed encodings,
    each a lead byte with the continuation bytes it calls for, in the
    ranges that leave out overlong forms, surrogates and values above
    U+10FFFF. *)
Definition byteIn (a : ascii) (first last : nat) : bool :=
  ((first <=? nat_of_ascii a) && (nat_of_ascii a <=? last))%nat.

Fixpoint validBytes (l : list ascii) : bool :=
  match l with
  | [] => true
  | a :: l1 =>
      let n := nat_of_ascii a in
      if (n <? 128)%nat then validBytes l1
      else if byteIn a 194 223 then
        match l1 with
        | b :: l2 => byteIn b 128 191 && validBytes l2
        | _ => false
        end
      else if byteIn a 224 239 then
        match l1 with
        | b :: c :: l3 =>
            byteIn b (if (n =? 224)%nat then 160 else 128)
                     (if (n =? 237)%nat then 159 else 191)
            && byteIn c 128 191 && validBytes l3
        | _ => false
        end
      else if byteIn a 240 244 then
        match l1 with
        | b :: c :: d :: l4 =>
            byteIn b (if (n =? 240)%nat then 144 else 128)
                     (if (n =? 244)%nat then 143 else 191)
            && byteIn c 128 191 && byteIn d 128 191 && validBytes l4
        | _ => false
        end
      else false
  end.

Definition ValidString (s : string) : bool := validBytes (bytes s).

(** A step that removes a white-space rune shortens the text. *)
Definition shortens (step : list ascii -> option (list ascii)) : Prop :=
  forall l r, step l = Some r -> (length r < length l)%nat.

End GoStrings.

(** ** internal/gotify *)

Module Gotify.
Import GoStrings.

(** A decoded JSON value, the dynamic type [any] of the extras tree. *)
Inductive any :=
| AString (s : string)
| ANumber (n : Z)
| ABool (b : bool)
| ANull
| AList (l : list any)
| AMap (m : gmap string any).

(** A Go map value: [None] is the nil map, which reads as the empty map. *)
Definition gomap (V : Type) : Type := option (gmap string V).

Definition entries {V : Type} (m : gomap V) : gmap string V := default ∅ m.

(** [len(m)] of a map. *)
Definition mapLen {V : Type} (m : gomap V) : nat := size (entries m).

(** [MessageRequest]: its declaration is not among the sources; the fields
    are the ones [ParseMessageRequest] fills in. *)
Record MessageRequest := {
  Message : string;
  Title : string;
  Priority : Z;
  Extras : gomap any
}.

Definition AnnotationGotifyContentType : string := "gotify_content_type".
Definition AnnotationGotifyClickURL : string := "gotify_click_url".
Definition AnnotationGotifyBigImageURL : string := "gotify_big_image_url".
Definition AnnotationGotifyOnReceiveIntentURL : string := "gotify_on_receive_intent_url".

(** The loop of [extrasStringAtPath]: each step asserts that the current
    node is a map and reads the next key in it. *)
Fixpoint walkPath (current : any) (path : list string) : option any :=
  match path with
  | [] => Some current
  | key :: rest =>
      match current with
      | AMap currentMap =>
          match currentMap !! key with
          | Some next => walkPath next rest
          | None => None
          end
      | _ => None
      end
  end.

Definition extrasStringAtPath (extras : gomap any) (path : list string) : option string :=
  if (mapLen extras =? 0)%nat || (length path =? 0)%nat then None
  else
    match walkPath (AMap (entries extras)) path with
    | Some (AString stringValue) =>
        let stringValue := TrimSpace stringValue in
        if String.eqb stringValue "" then None else Some stringValue
    | _ => None
    end.

(** [if v, ok := extrasStringAtPath(...); ok { annotations[key] = v }]. *)
Definition setIfFound (key : string) (found : option string)
    (annotations : gmap string string) : gmap string string :=
  match found with
  | Some v => <[key := v]> annotations
  | None => annotations
  end.

Definition ExtrasAnnotations (extras : gomap any) : gomap string :=
  if (mapLen extras =? 0)%nat then Some ∅
  else
    let annotations : gmap string string := ∅ in
    let annotations :=
      setIfFound AnnotationGotifyContentType
        (extrasStringAtPath extras ["client::display"; "contentType"]) annotations in
    let annotations :=
      setIfFound AnnotationGotifyClickURL
        (extrasStringAtPath extras ["client::notification"; "click"; "url"]) annotations in
    let annotations :=
      setIfFound AnnotationGotifyBigImageURL
        (extrasStringAtPath extras ["client::notification"; "bigImageUrl"]) annotations in
    let annotations :=
      setIfFound AnnotationGotifyOnReceiveIntentURL
        (extrasStringAtPath extras ["android::action"; "onReceive"; "intentUrl"]) annotations in
    Some annotations.

(** The four annotation keys with the path each is read from. *)
Definition wellKnownExtras : list (string * list string) :=
  [ (AnnotationGotifyContentType, ["client::display"; "contentType"]);
    (AnnotationGotifyClickURL, ["client::notification"; "click"; "url"]);
    (AnnotationGotifyBigImageURL, ["client::notification"; "bigImageUrl"]);
    (AnnotationGotifyOnReceiveIntentURL, ["android::action"; "onReceive"; "intentUrl"]) ].

(** The spec's words: the value found in a tree by following a path, every
    node on the way being a map that has the next key. *)
Inductive atPath : any -> list string -> any -> Prop :=
| atPath_here v : atPath v [] v
| atPath_step m key next rest v :
    m !! key = Some next -> atPath next rest v -> atPath (AMap m) (key :: rest) v.

(** *** Parsing a message request *)

Inductive requestError :=
| ErrMessageRequired
| ErrInvalidPriority
| ErrUnsupportedContentType
| ErrDecode.

Definition DefaultPriority : Z := 5.

Definition validate (msg : MessageRequest) : requestError + MessageRequest :=
  if String.eqb (TrimSpace (Message msg)) "" then inl ErrMessageRequired
  else if Priority msg <? 0 then inl ErrInvalidPriority
  else inr msg.

(** [jsonMessagePayload], as [json.Decode] fills it in; a priority that
    is absent is the nil pointer. *)
Record jsonMessagePayload := {
  PayloadMessage : string;
  PayloadTitle : string;
  PayloadPriority : option Z;
  PayloadExtras : gomap any
}.

(** [parseJSON], from the outcome of decoding the body ([None]: the
    decoder failed). *)
Definition parseJSON (decoded : option jsonMessagePayload) : requestError + MessageRequest :=
  match decoded with
  | None => inl ErrDecode
  | Some payload =>
      let priority := default DefaultPriority (PayloadPriority payload) in
      validate {| Message := TrimSpace (PayloadMessage payload);
                  Title := TrimSpace (PayloadTitle payload);
                  Priority := priority;
                  Extras := PayloadExtras payload |}
  end.

(** [request.FormValue]: the first value of the key, or the empty string. *)
Definition FormValue (form : gmap string (list string)) (key : string) : string :=
  match form !! key with
  | Some (v :: _) => v
  | _ => ""
  end.

(** [parseForm], from the outcome of [request.ParseForm] ([None]: it
    failed). *)
Definition parseForm (form : option (gmap string (list string))) : requestError + MessageRequest :=
  match form with
  | None => inl ErrDecode
  | Some form =>
      let message := TrimSpace (FormValue form "message") in
      let title := TrimSpace (FormValue form "title") in
      let priorityRaw := TrimSpace (FormValue form "priority") in
      if negb (String.eqb priorityRaw "") then
        match Atoi priorityRaw with
        | None => inl ErrInvalidPriority
        | Some parsed =>
            validate {| Message := message; Title := title;
                        Priority := parsed; Extras := None |}
        end
      else
        validate {| Message := message; Title := title;
                    Priority := DefaultPriority; Extras := None |}
  end.

(** [ParseMessageRequest].  [contentType] is the Content-Type header and
    [parsedType] what [mime.ParseMediaType] makes of it ([None]: an error);
    the body is given by what each decoder makes of it. *)
Definition ParseMessageRequest (contentType : string) (parsedType : option string)
    (decoded : option jsonMessagePayload) (form : option (gmap string (list string)))
    : requestError + MessageRequest :=
  let dispatch (mediaType : string) :=
    if String.eqb mediaType "application/json" then parseJSON decoded
    else if String.eqb mediaType "application/x-www-form-urlencoded"
            || String.eqb mediaType "" then parseForm form
    else inl ErrUnsupportedContentType in
  if negb (String.eqb contentType "") then
    match parsedType with
    | None => inl ErrUnsupportedContentType
    | Some parsedType => dispatch (ToLowerText (TrimSpace parsedType))
    end
  else dispatch "".

End Gotify.

(** ** internal/alertmanager *)

Module Alertmanager.
Import GoStrings.

(** *** Error values

    The error values the client builds and inspects.  [Wrap] is the value
    of [fmt.Errorf] with its [%w] operands in order; the other constructors
    with an inner error are the library types that unwrap to it. *)
Inductive error :=
| Sentinel (name : string)
| Canceled
| DeadlineExceeded
| Status (statusCode : Z) (body : string)
| X509UnknownAuthority
| X509Hostname
| X509CertificateInvalid
| X509SystemRoots
| TLSRecordHeader
| NetOp (inner : error)
| NetDNS (isTimeout : bool)
| URLError (inner : error)
| Wrap (operands : list error)
| Other (text : string).

Definition ErrClientNil : error := Sentinel "alertmanager client is nil".
Definition ErrUpstreamNon2xx : error := Sentinel "alertmanager returned non-2xx status".
Definition ErrEncodeRequest : error := Sentinel "encode request failed".
Definition ErrCreateRequest : error := Sentinel "create request failed".
Definition ErrDoRequest : error := Sentinel "perform request failed".
Definition ErrReadResponseBody : error := Sentinel "read response body failed".
Definition ErrContextDone : error := Sentinel "context done".

(** [Unwrap]: the errors directly below a node. *)
Definition unwrap (e : error) : list error :=
  match e with
  | NetOp inner | URLError inner => [inner]
  | Wrap operands => operands
  | _ => []
  end.

(** The walk of [errors.Is] and [errors.As]: the node itself, then the
    trees below it, depth first and left to right; the first node that
    [f] accepts. *)
Fixpoint findInChain (f : error -> bool) (e : error) : option error :=
  if f e then Some e
  else
    match e with
    | NetOp inner | URLError inner => findInChain f inner
    | Wrap operands =>
        (fix first (l : list error) : option error :=
           match l with
           | [] => None
           | x :: l' =>
               match findInChain f x with
               | Some r => Some r
               | None => first l'
               end
           end) operands
    | _ => None
    end.

(** [err == target] for the comparable targets the client tests against:
    the [errors.New] values and the two context errors. *)
Definition sameError (target e : error) : bool :=
  match target, e with
  | Sentinel a, Sentinel b => String.eqb a b
  | Canceled, Canceled => true
  | DeadlineExceeded, DeadlineExceeded => true
  | _, _ => false
  end.

Definition found (r : option error) : bool :=
  match r with Some _ => true | None => false end.

(** [errors.Is(err, target)]. *)
Definition errorsIs (err target : error) : bool :=
  found (findInChain (sameError target) err).

(** [errors.As(err, &target)], the target's type given by [hasType]: the
    first error of the chain of that type, if any. *)
Definition errorsAs (hasType : error -> bool) (err : error) : option error :=
  findInChain hasType err.

(** The target types of the [errors.As] calls. *)
Definition isStatusError (e : error) : bool :=
  match e with Status _ _ => true | _ => false end.

Definition isOpError (e : error) : bool :=
  match e with NetOp _ => true | _ => false end.

Definition isUnknownAuthorityError (e : error) : bool :=
  match e with X509UnknownAuthority => true | _ => false end.

Definition isHostnameError (e : error) : bool :=
  match e with X509Hostname => true | _ => false end.

Definition isCertificateInvalidError (e : error) : bool :=
  match e with X509CertificateInvalid => true | _ => false end.

Definition isSystemRootsError (e : error) : bool :=
  match e with X509SystemRoots => true | _ => false end.

Definition isRecordHeaderError (e : error) : bool :=
  match e with TLSRecordHeader => true | _ => false end.

(** The types that implement [net.Error]. *)
Definition isNetError (e : error) : bool :=
  match e with
  | DeadlineExceeded | NetOp _ | NetDNS _ | URLError _ => true
  | _ => false
  end.

(** The [Timeout] method: [*net.OpError] and [*url.Error] ask the error
    they hold, when it has the method. *)
Fixpoint Timeout (e : error) : bool :=
  match e with
  | DeadlineExceeded => true
  | NetDNS isTimeout => isTimeout
  | NetOp inner | URLError inner => Timeout inner
  | _ => false
  end.

(** *** Constants and the client *)

Definition Millisecond : Z := 1000000.
Definition Second : Z := 1000 * Millisecond.

Definition maxErrorBodyBytes : Z := 64 * 1024.
Definition defaultRetryMaxAttempts : Z := 3.
Definition defaultRetryInitial : Z := 200 * Millisecond.
Definition defaultRetryMaxBackoff : Z := 1 * Second.

Definition StatusOK : Z := 200.
Definition StatusMultipleChoices : Z := 300.
Definition StatusTooManyRequests : Z := 429.
Definition StatusInternalServerError : Z := 500.

(** A pointer field, as a nil test reads it. *)
Inductive pointer := Nil | NonNil.

Definition isNil (p : pointer) : bool :=
  match p with Nil => true | NonNil => false end.

(** [Client]: the base URL and the HTTP client, each nil or set, and the
    retry fields.  A [*Client] is an [option Client], [None] the nil
    pointer. *)
Record Client := {
  baseURL : pointer;
  httpClient : pointer;
  retryMaxAttempts : Z;
  retryInitial : Z;
  retryMaxBackoff : Z
}.

(** The client [New] returns when it returns one: the base URL and the
    HTTP client set, the default retry settings. *)
Definition New : Client :=
  {| baseURL := NonNil;
     httpClient := NonNil;
     retryMaxAttempts := defaultRetryMaxAttempts;
     retryInitial := defaultRetryInitial;
     retryMaxBackoff := defaultRetryMaxBackoff |}.

(** Both pointers of the client are set, as [New] leaves them. *)
Definition complete (client : Client) : Prop :=
  httpClient client = NonNil /\ baseURL client = NonNil.

(** *** Classification *)

Definition isPermanentTLSError (err : error) : bool :=
  if found (errorsAs isUnknownAuthorityError err) then true
  else if found (errorsAs isHostnameError err) then true
  else if found (errorsAs isCertificateInvalidError err) then true
  else if found (errorsAs isSystemRootsError err) then true
  else found (errorsAs isRecordHeaderError err).

(** [shouldRetry]; [None] is the nil error. *)
Definition shouldRetry (err : option error) : bool :=
  match err with
  | None => false
  | Some err =>
      if errorsIs err Canceled || errorsIs err DeadlineExceeded then false
      else if isPermanentTLSError err then false
      else
        match errorsAs isStatusError err with
        | Some statusErr =>
            let code := match statusErr with Status c _ => c | _ => 0 end in
            if code =? StatusTooManyRequests then true
            else code >=? StatusInternalServerError
        | None =>
            if errorsIs err ErrDoRequest then
              if match errorsAs isNetError err with
                 | Some netErr => Timeout netErr
                 | None => false
                 end
              then true
              else found (errorsAs isOpError err)
            else false
        end
  end.

(** *** Backoff *)

(** The value an [int64] computation leaves: the result modulo 2^64, read
    as a signed number. *)
Definition wrap64 (z : Z) : Z := (z + 2 ^ 63) mod 2 ^ 64 - 2 ^ 63.

Definition maxInt64 : Z := 2 ^ 63 - 1.

(** The loop of [computeBackoff], [remaining] iterations before
    [i < attempt] fails, and the two statements after it. *)
Fixpoint backoffLoop (remaining : nat) (backoff maxBackoff : Z) : Z :=
  match remaining with
  | O => if backoff >? maxBackoff then maxBackoff else backoff
  | S remaining' =>
      let backoff := wrap64 (backoff * 2) in
      if backoff >=? maxBackoff then maxBackoff
      else backoffLoop remaining' backoff maxBackoff
  end.

Definition computeBackoff (attempt initial maxBackoff : Z) : Z :=
  if attempt <=? 1 then initial
  else backoffLoop (Z.to_nat (attempt - 1)) initial maxBackoff.

(** *** Delivery *)

(** [Alert]: its declaration is not among the sources; the fields are the
    ones the forwarder fills in.  Times are instants in nanoseconds. *)
Record Alert := {
  Labels : gmap string string;
  Annotations : gmap string string;
  StartsAt : Z;
  EndsAt : Z
}.

(** What [ctx.Err()] returns once the context is done. *)
Inductive ctxError := CtxCanceled | CtxDeadlineExceeded.

Definition ctxErrOf (c : ctxError) : error :=
  match c with CtxCanceled => Canceled | CtxDeadlineExceeded => DeadlineExceeded end.

(** What one call of [postAlertsOnce] meets: a failure of one of its
    steps, or a response with its status code, status line and the
    outcome of reading the body through the 64 KiB limit. *)
Inductive readResult := ReadFailed (e : error) | ReadAll (data : string).

Inductive exchange :=
| EncodeFailed (e : error)
| CreateFailed (e : error)
| DoFailed (e : error)
| Response (statusCode : Z) (status : string) (body : readResult).

(** [resp.StatusCode < http.StatusOK || resp.StatusCode >= http.StatusMultipleChoices]. *)
Definition non2xx (statusCode : Z) : bool :=
  (statusCode <? StatusOK) || (statusCode >=? StatusMultipleChoices).

(** The body excerpt kept in the status error: the trimmed first 64 KiB,
    or the status line when that is empty. *)
Definition errorBody (status data : string) : string :=
  let msg := TrimSpace (sliceTo data (Z.to_nat maxErrorBodyBytes)) in
  if String.eqb msg "" then status else msg.

Definition postAlertsOnce (x : exchange) : option error :=
  match x with
  | EncodeFailed e => Some (Wrap [ErrEncodeRequest; e])
  | CreateFailed e => Some (Wrap [ErrCreateRequest; e])
  | DoFailed e => Some (Wrap [ErrDoRequest; e])
  | Response statusCode status body =>
      if non2xx statusCode then
        match body with
        | ReadFailed readErr => Some (Wrap [ErrReadResponseBody; readErr])
        | ReadAll data =>
            Some (Wrap [ErrUpstreamNon2xx; Status statusCode (errorBody status data)])
        end
      else None
  end.

(** The surroundings of one [PostAlerts] call, by attempt number: what the
    exchange meets, what [ctx.Err()] returns when read after the attempt
    failed, and whether [ctx.Done()] is ready before the timer in the
    sleep that follows the attempt. *)
Record World := {
  exchangeAt : Z -> exchange;
  ctxErrAfter : Z -> option ctxError;
  ctxDoneInSleep : Z -> option ctxError
}.

(** The [select] of [sleepWithContext]. *)
Definition sleepWithContext (done : option ctxError) (d : Z) : option error :=
  match done with
  | Some c => Some (Wrap [ErrContextDone; ctxErrOf c])
  | None => None
  end.

(** What a call does, in order. *)
Inductive event :=
| EvAttempt (attempt : Z)
| EvCtxDone (attempt : Z)
| EvSleep (attempt : Z) (d : Z)
| EvSleepAborted (attempt : Z) (d : Z).

(** The [for] loop of [PostAlerts] from [attempt] on; [remaining] counts
    the iterations left before [attempt <= attempts] fails. *)
Fixpoint postAlertsLoop (w : World) (client : Client) (attempts : Z)
    (remaining : nat) (attempt : Z) : option error * list event :=
  match remaining with
  | O => (Some ErrDoRequest, [])
  | S remaining' =>
      let err := postAlertsOnce (exchangeAt w attempt) in
      match err with
      | None => (None, [EvAttempt attempt])
      | Some e =>
          match ctxErrAfter w attempt with
          | Some ctxErr =>
              (Some (Wrap [ErrDoRequest; ctxErrOf ctxErr]),
               [EvAttempt attempt; EvCtxDone attempt])
          | None =>
              if negb (shouldRetry err) || (attempt =? attempts) then
                (Some e, [EvAttempt attempt])
              else
                let backoff :=
                  computeBackoff attempt (retryInitial client) (retryMaxBackoff client) in
                match sleepWithContext (ctxDoneInSleep w attempt) backoff with
                | Some sleepErr =>
                    (Some (Wrap [ErrDoRequest; sleepErr]),
                     [EvAttempt attempt; EvSleepAborted attempt backoff])
                | None =>
                    let '(result, events) :=
                      postAlertsLoop w client attempts remaining' (attempt + 1) in
                    (result, EvAttempt attempt :: EvSleep attempt backoff :: events)
                end
          end
      end
  end.

(** [PostAlerts]: the error returned and the events of the call.  A
    receiver that is nil, or that lacks its HTTP client or its base URL,
    gets [ErrClientNil] before anything is done. *)
Definition PostAlerts (w : World) (client : option Client) : option error * list event :=
  match client with
  | None => (Some ErrClientNil, [])
  | Some client =>
      if isNil (httpClient client) || isNil (baseURL client) then (Some ErrClientNil, [])
      else
        let attempts := Z.max (retryMaxAttempts client) 1 in
        postAlertsLoop w client attempts (Z.to_nat attempts) 1
  end.

(** The number of HTTP exchanges a call performed. *)
Fixpoint attemptsOf (events : list event) : nat :=
  match events with
  | [] => O
  | EvAttempt _ :: events' => S (attemptsOf events')
  | _ :: events' => attemptsOf events'
  end.

(** The call performs attempt [n]. *)
Definition performs (w : World) (client : Client) (n : Z) : Prop :=
  EvAttempt n ∈ (PostAlerts w (Some client)).2.

(** The call's last events are [tail], and no attempt comes after attempt [n]. *)
Definition endsWith (events tail : list event) (n : Z) : Prop :=
  (exists before, events = before ++ tail) /\
  (forall k, EvAttempt k ∈ events -> k <= n).

(** An error that reports the caller's cancellation or deadline. *)
Definition isCancellation (e : error) : bool :=
  errorsIs e Canceled || errorsIs e DeadlineExceeded.

(** Worlds in which the first answer is 503 and the context is done when
    read after it, or becomes done in the sleep that follows. *)
Definition doneAfterFirst (c : ctxError) : World :=
  {| exchangeAt _ := Response 503 "" (ReadAll "");
     ctxErrAfter n := if n =? 1 then Some c else None;
     ctxDoneInSleep _ := None |}.

Definition doneInFirstSleep (c : ctxError) : World :=
  {| exchangeAt _ := Response 503 "" (ReadAll "");
     ctxErrAfter _ := None;
     ctxDoneInSleep n := if n =? 1 then Some c else None |}.

(** An uncancelled caller context: never done when read, never ready in a
    sleep. *)
Definition uncancelled (w : World) : Prop :=
  (forall n, ctxErrAfter w n = None) /\ (forall n, ctxDoneInSleep w n = None).

(** An upstream that answers the attempts with the given status codes in
    turn (and 200 afterwards), under an uncancelled context. *)
Definition upstreamAnswering (codes : list Z) : World :=
  {| exchangeAt n := Response (nth (Z.to_nat (n - 1)) codes 200) "" (ReadAll "");
     ctxErrAfter _ := None;
     ctxDoneInSleep _ := None |}.

(** *** Further parts of the client *)

(** [x] is an error of the chain of [e]: [e] itself, or an error of the
    chain of one of the errors [e] unwraps to. *)
Inductive inChain (x : error) : error -> Prop :=
| inChain_here : inChain x x
| inChain_op inner : inChain x inner -> inChain x (NetOp inner)
| inChain_url inner : inChain x inner -> inChain x (URLError inner)
| inChain_wrap operand operands :
    operand ∈ operands -> inChain x operand -> inChain x (Wrap operands).

(** The walk of [findInChain] over the operands of a [Wrap]. *)
Definition firstInChain (f : error -> bool) : list error -> option error :=
  fix first (l : list error) : option error :=
    match l with
    | [] => None
    | x :: l' =>
        match findInChain f x with
        | Some r => Some r
        | None => first l'
        end
    end.

(** The backoff before the attempt after [k]. *)
Definition backoffAfter (client : Client) (k : Z) : Z :=
  computeBackoff k (retryInitial client) (retryMaxBackoff client).

(** The receivers that the guard of [PostAlerts] turns away. *)
Definition refused (receiver : option Client) : Prop :=
  match receiver with
  | None => True
  | Some client => httpClient client = Nil \/ baseURL client = Nil
  end.

(** The events of [count] attempts from [from] on, each followed by the
    sleep it completes before the next attempt. *)
Fixpoint retried (client : Client) (from : Z) (count : nat) : list event :=
  match count with
  | O => []
  | S count' =>
      EvAttempt from :: EvSleep from (backoffAfter client from)
        :: retried client (from + 1) count'
  end.

(** The five errors [isPermanentTLSError] looks for. *)
Definition isTLSError (e : error) : bool :=
  isUnknownAuthorityError e || isHostnameError e || isCertificateInvalidError e
  || isSystemRootsError e || isRecordHeaderError e.

(** The numbers of the attempts of a call, and the durations of the sleeps
    it completed, in order. *)
Fixpoint attemptNumbers (events : list event) : list Z :=
  match events with
  | [] => []
  | EvAttempt n :: events' => n :: attemptNumbers events'
  | _ :: events' => attemptNumbers events'
  end.

Fixpoint sleepsOf (events : list event) : list Z :=
  match events with
  | [] => []
  | EvSleep _ d :: events' => d :: sleepsOf events'
  | _ :: events' => sleepsOf events'
  end.

Definition sumZ (l : list Z) : Z := fold_right Z.add 0 l.

(** The attempts [a], [a+1], ... ([count] of them). *)
Definition attemptsFrom (a : Z) (count : nat) : list Z :=
  map (fun i => a + Z.of_nat i) (seq 0 count).

(** An upstream that answers every attempt with status 503, under an
    uncancelled context. *)
Definition alwaysUnavailable : World :=
  {| exchangeAt _ := Response 503 "" (ReadAll "");
     ctxErrAfter _ := None;
     ctxDoneInSleep _ := None |}.

(** An upstream whose error body cannot be read, under an uncancelled
    context. *)
Definition unreadableBody : World :=
  {| exchangeAt _ := Response 503 "" (ReadFailed (NetDNS true));
     ctxErrAfter _ := None;
     ctxDoneInSleep _ := None |}.

(** [Auth] and [normalizeAuth]. *)
Record Auth := {
  BasicUsername : string;
  BasicPassword : string;
  BearerToken : string
}.

Definition normalizeAuth (auth : Auth) : Auth :=
  {| BasicUsername := TrimSpace (BasicUsername auth);
     BasicPassword := TrimSpace (BasicPassword auth);
     BearerToken := TrimSpace (BearerToken auth) |}.

(** The Authorization header of a request: absent, the bearer scheme with
    its token, or the basic scheme with the credentials it encodes. *)
Inductive authorization :=
| NoAuthorization
| BearerAuthorization (token : string)
| BasicAuthorization (username password : string).

(** [applyAuth], on a request whose header is [current]: the header after
    the call. *)
Definition applyAuth (auth : Auth) (current : authorization) : authorization :=
  if negb (String.eqb (BearerToken auth) "") then BearerAuthorization (BearerToken auth)
  else if negb (String.eqb (BasicUsername auth) "") || negb (String.eqb (BasicPassword auth) "")
  then BasicAuthorization (BasicUsername auth) (BasicPassword auth)
  else current.

(** What the one exchange of [Ready] meets. *)
Inductive probe :=
| ProbeCreateFailed (e : error)
| ProbeDoFailed (e : error)
| ProbeResponse (statusCode : Z).

Definition ErrNotReady : error := Sentinel "alertmanager not ready".

(** [Ready], for a receiver that passes its guard (the guard of
    [PostAlerts], with the same [ErrClientNil]): the error returned for
    what the exchange meets. *)
Definition Ready (x : probe) : option error :=
  match x with
  | ProbeCreateFailed e => Some (Wrap [e])
  | ProbeDoFailed e => Some (Wrap [e])
  | ProbeResponse statusCode =>
      if negb (statusCode =? StatusOK) then Some (Wrap [ErrNotReady]) else None
  end.

End Alertmanager.

(** ** internal/server *)

Module Server.
Import GoStrings.

(** [App]: its declaration is not among the sources; the fields are the
    ones [newResolveAppFunc] fills in. *)
Record App := {
  Name : string;
  ID : Z;
  AlertName : string;
  Labels : gmap string string;
  SeverityFromPriority : gmap Z string
}.

(** The parts of an [*http.Request] that [extractToken] reads: the header
    fields under their canonical names and the parsed query, each key with
    its values in order. *)
Record Request := {
  Header : gmap string (list string);
  Query : gmap string (list string)
}.

(** [Header.Get] and [url.Values.Get]: the first value of the key, or the
    empty string. *)
Definition valuesGet (values : gmap string (list string)) (key : string) : string :=
  match values !! key with
  | Some (v :: _) => v
  | _ => ""
  end.

Definition bearerPrefix : string := "bearer ".

Definition extractToken (request : Request) : string :=
  let headerToken := TrimSpace (valuesGet (Header request) "X-Gotify-Key") in
  if negb (String.eqb headerToken "") then headerToken
  else
    let queryToken := TrimSpace (valuesGet (Query request) "token") in
    if negb (String.eqb queryToken "") then queryToken
    else
      let authHeader := TrimSpace (valuesGet (Header request) "Authorization") in
      if String.eqb authHeader "" then ""
      else
        let lower := ToLower authHeader in
        if negb (HasPrefix lower bearerPrefix) then ""
        else TrimSpace (sliceFrom authHeader (String.length bearerPrefix)).

(** The requests of the repository's precedence tests. *)
Definition requestWith (header query authorization : list string) : Request :=
  {| Header := <["X-Gotify-Key" := header]> (<["Authorization" := authorization]> ∅);
     Query := <["token" := query]> ∅ |}.

(** *** The forwarding-id counter *)

(** [atomic.Uint64.Add]: the new value, modulo 2^64. *)
Definition uint64Add (counter delta : Z) : Z := (counter + delta) mod 2 ^ 64.

(** A request handler, as far as the counter goes.  [Arrived accepted]: the
    request is being handled and has not reached the counter; [accepted]
    tells whether its method, token and body pass the checks before it.
    [Refused]: it was answered with an error before the counter.
    [Allocated id]: [messageID.Add(1)] returned [id]. *)
Inductive handler :=
| Arrived (accepted : bool)
| Refused
| Allocated (messageIdentifier : Z).

(** The process: the counter [messageID] and the handlers in flight. *)
Record process := Process { messageID : Z; handlers : list handler }.

(** One step of the process: any handler that has arrived moves on, in any
    order.  The increment is one step: it is atomic. *)
Inductive step : process -> process -> Prop :=
| step_refuse c hs i :
    hs !! i = Some (Arrived false) ->
    step (Process c hs) (Process c (<[i := Refused]> hs))
| step_allocate c hs i :
    hs !! i = Some (Arrived true) ->
    step (Process c hs)
         (Process (uint64Add c 1) (<[i := Allocated (uint64Add c 1)]> hs)).

(** The process at start: the counter is zero, no request has arrived at it. *)
Definition started (accepted : list bool) : process :=
  Process 0 (map Arrived accepted).

Definition reachable (accepted : list bool) (p : process) : Prop :=
  rtc step (started accepted) p.

(** How many handlers satisfy [f]. *)
Fixpoint countIf (f : handler -> bool) (hs : list handler) : nat :=
  match hs with
  | [] => O
  | h :: hs' => if f h then S (countIf f hs') else countIf f hs'
  end.

Definition isArrived (h : handler) : bool :=
  match h with Arrived _ => true | _ => false end.

Definition isAllocated (h : handler) : bool :=
  match h with Allocated _ => true | _ => false end.

(** What holds of every process reached from a start with [n] requests. *)
Record counted (n : nat) (p : process) : Prop := {
  counted_length : length (handlers p) = n;
  counted_counter : messageID p = Z.of_nat (countIf isAllocated (handlers p));
  counted_range : forall i id,
    handlers p !! i = Some (Allocated id) -> 1 <= id <= messageID p;
  counted_distinct : forall i j id,
    handlers p !! i = Some (Allocated id) ->
    handlers p !! j = Some (Allocated id) -> i = j
}.

(** The handlers after the first [k] of them were accepted one after the
    other, each reaching the counter before the next arrives at it. *)
Definition inTurn (k : nat) : list handler :=
  map (fun i => Allocated (Z.of_nat (S i) mod 2 ^ 64)) (seq 0 k).

(** The forwarding id of the [k]-th message accepted since the start, when
    the handlers reach the counter one after the other. *)
Definition nthMessageID (k : N) : Z :=
  N.iter k (fun c => uint64Add c 1) 0.

(** *** The message handler *)








(** *** What the handler checks before it allocates an id *)


End Server.

(** ** cmd/gotilert/main.go *)

Module Main.
Import GoStrings.

(** *** Severity resolution *)

(** The loop state of [severityForPriority]: [bestKey] and [bestSet]. *)
Record best := Best { bestKey : Z; bestSet : bool }.

(** The body of [for key := range mapping]. *)
Definition severityStep (priority : Z) (st : best) (key : Z) : best :=
  if negb (bestSet st) then Best key true
  else if (key <=? priority) && (bestKey st <=? priority) then
    (if key >? bestKey st then Best key true else st)
  else if (bestKey st >? priority) && (key <? bestKey st) then Best key true
  else st.

(** [severityForPriority], with the order in which [range] visits the
    keys made explicit: Go leaves that order unspecified. *)
Definition severityForPriorityIn (order : list Z)
    (mapping : gmap Z string) (priority : Z) : string :=
  match mapping !! priority with
  | Some sev => sev
  | None =>
      let st := fold_left (severityStep priority) order (Best 0 false) in
      match mapping !! bestKey st with
      | Some sev => sev
      | None => "info"
      end
  end.

(** The orders [range] may take: every key once. *)
Definition rangeOrder (mapping : gmap Z string) (order : list Z) : Prop :=
  order ≡ₚ (map_to_list mapping).*1.

(** One of them, so that the function runs. *)
Definition severityForPriority (mapping : gmap Z string) (priority : Z) : string :=
  severityForPriorityIn (map_to_list mapping).*1 mapping priority.

Definition canonicalSeverity (s : string) : Prop :=
  s = "info" \/ s = "warning" \/ s = "critical".

(** The spec's words: the greatest configured key at or below [p], and
    the smallest configured key. *)
Definition greatestKeyBelow (m : gmap Z string) (p k : Z) : Prop :=
  is_Some (m !! k) /\ k <= p /\ forall k', is_Some (m !! k') -> k' <= p -> k' <= k.

Definition smallestKey (m : gmap Z string) (k : Z) : Prop :=
  is_Some (m !! k) /\ forall k', is_Some (m !! k') -> k <= k'.

(** What the loop has found after visiting the keys [l]. *)
Definition bestOf (p : Z) (l : list Z) (st : best) : Prop :=
  bestSet st = true /\ bestKey st ∈ l /\
  (bestKey st <= p -> forall k, k ∈ l -> k <= p -> k <= bestKey st) /\
  (p < bestKey st -> forall k, k ∈ l -> bestKey st <= k).

(** *** The forwarder *)

(** The defaults of the configuration that [newForwarder] captures. *)
Record Defaults := {
  DefaultAlertName : string;
  TTL : Z;
  DefaultSeverityFromPriority : gmap Z string;
  DefaultLabels : gmap string string
}.

Definition copyLabels (input : gmap string string) : gmap string string := input.

(** [mergeStringMap(dst, src)]: [dst] after the call. *)
Definition mergeStringMap (dst src : gmap string string) : gmap string string :=
  if (size src =? 0)%nat then dst else src ∪ dst.

(** The bytes of the literal that [pickSummary] appends. *)
Definition truncationMarker : string :=
  ofBytes (map byteOf [195; 162; 226; 130; 172; 194; 166]%nat).

Definition pickSummary (appName title message : string) : string :=
  let trimmedTitle := TrimSpace title in
  if negb (String.eqb trimmedTitle "") then trimmedTitle
  else
    let trimmedMessage := TrimSpace message in
    if String.eqb trimmedMessage "" then appName
    else
      let maxLen := 120 in
      if len trimmedMessage <=? maxLen then trimmedMessage
      else sliceTo trimmedMessage (Z.to_nat maxLen) +:+ truncationMarker.

(** The alert name and the severity map the forwarder settles on. *)
Definition alertNameFor (defaults : Defaults) (app : Server.App) : string :=
  if negb (String.eqb (TrimSpace (Server.AlertName app)) "")
  then TrimSpace (Server.AlertName app)
  else DefaultAlertName defaults.

Definition severityMapFor (defaults : Defaults) (app : Server.App) : gmap Z string :=
  if (0 <? size (Server.SeverityFromPriority app))%nat
  then Server.SeverityFromPriority app
  else DefaultSeverityFromPriority defaults.

(** The closure [newForwarder] returns, up to the alert it hands to
    [PostAlerts]; [now] is the instant [time.Now()] returns. *)
Definition newForwarder (defaults : Defaults) (app : Server.App)
    (msg : Gotify.MessageRequest) (messageIdentifier : Z) (now : Z) : Alertmanager.Alert :=
  let severityMap := severityMapFor defaults app in
  let alertName := alertNameFor defaults app in
  let severity := severityForPriority severityMap (Gotify.Priority msg) in
  let labels := copyLabels (copyLabels (DefaultLabels defaults)) in
  let labels := mergeStringMap labels (Server.Labels app) in
  let labels := <["alertname" := alertName]> labels in
  let labels := <["app" := Server.Name app]> labels in
  let labels := <["severity" := severity]> labels in
  let labels := <["priority" := Itoa (Gotify.Priority msg)]> labels in
  let labels := <["gotilert_id" := FormatUint messageIdentifier]> labels in
  let annotations : gmap string string :=
    <["description" := Gotify.Message msg]>
      (<["summary" := pickSummary (Server.Name app) (Gotify.Title msg) (Gotify.Message msg)]> ∅) in
  let annotations :=
    mergeStringMap annotations (Gotify.entries (Gotify.ExtrasAnnotations (Gotify.Extras msg))) in
  {| Alertmanager.Labels := labels;
     Alertmanager.Annotations := annotations;
     Alertmanager.StartsAt := now;
     Alertmanager.EndsAt := now + TTL defaults |}.

(** *** Application ids and deadlines *)

(** [appIDFromName]: the arithmetic is that of [uint32]. *)
Definition offset32 : Z := 2166136261.
Definition prime32 : Z := 16777619.

Definition appIDStep (hash : Z) (b : ascii) : Z :=
  (Z.lxor hash (Z.of_nat (nat_of_ascii b)) * prime32) mod 2 ^ 32.

Definition appIDFromName (appName : string) : Z :=
  fold_left appIDStep (bytes appName) offset32.




(** [pickDuration]. *)
Definition pickDuration (value fallback : Z) : Z :=
  if value =? 0 then fallback else value.

(** Sixty-one letters e with an acute accent (U+00E9, two bytes each). *)
Definition sixtyOneAccented : string :=
  repeatString 61 (ofBytes (map byteOf [195; 169]%nat)).

(** The letter a and sixty-one letters e with an acute accent: 62
    characters in 123 bytes. *)
Definition accentedMessage : string := "a" +:+ sixtyOneAccented.

(** The map of the repository's severity tests. *)
Definition testSeverityMap : gmap Z string :=
  <[0 := "info"]> (<[2 := "warning"]> (<[5 := "critical"]> ∅)).

End Main.

(** ** internal/config *)

Module Config.
Import GoStrings.

Inductive configError :=
| ErrDefaultsSeverityMapRequired
| ErrDefaultsTTLNonPositive
| ErrPriorityNegative
| ErrInvalidSeverity.

Definition DefaultAlertName : string := "GotilertNotification".

Definition canonicalSeverity (input : string) : string :=
  let s := ToLowerText (TrimSpace input) in
  if String.eqb s "warn" || String.eqb s "warning" then "warning"
  else if String.eqb s "crit" || String.eqb s "critical" then "critical"
  else "info".

Definition validateSeverity (input : string) : option configError :=
  let s := ToLowerText (TrimSpace input) in
  if String.eqb s "info" || String.eqb s "warn" || String.eqb s "warning"
     || String.eqb s "crit" || String.eqb s "critical"
  then None
  else Some ErrInvalidSeverity.

(** The loop over a severity map, visiting the keys in [order]: the error
    returned, if any, and the map as the loop leaves it. *)
Fixpoint normalizeLoop (order : list Z) (mapping : gmap Z string)
    : option configError * gmap Z string :=
  match order with
  | [] => (None, mapping)
  | prio :: order' =>
      match mapping !! prio with
      | None => normalizeLoop order' mapping
      | Some sev =>
          if prio <? 0 then (Some ErrPriorityNegative, mapping)
          else
            match validateSeverity sev with
            | Some err => (Some err, mapping)
            | None => normalizeLoop order' (<[prio := canonicalSeverity sev]> mapping)
            end
      end
  end.

Definition normalizeSeverityMap (order : list Z) (mapping : gmap Z string)
    : option configError * gmap Z string :=
  if (size mapping =? 0)%nat then (None, mapping) else normalizeLoop order mapping.

(** [validateDefaults]: the error, if any, and the defaults afterwards. *)
Definition validateDefaults (order : list Z) (defaults : Main.Defaults)
    : option configError * Main.Defaults :=
  if (size (Main.DefaultSeverityFromPriority defaults) =? 0)%nat
  then (Some ErrDefaultsSeverityMapRequired, defaults)
  else
    let alertName :=
      if String.eqb (TrimSpace (Main.DefaultAlertName defaults)) ""
      then DefaultAlertName else Main.DefaultAlertName defaults in
    let '(err, mapping) :=
      normalizeLoop order (Main.DefaultSeverityFromPriority defaults) in
    let defaults' :=
      {| Main.DefaultAlertName := alertName;
         Main.TTL := Main.TTL defaults;
         Main.DefaultSeverityFromPriority := mapping;
         Main.DefaultLabels := Main.DefaultLabels defaults |} in
    match err with
    | Some e => (Some e, defaults')
    | None =>
        if Main.TTL defaults <=? 0 then (Some ErrDefaultsTTLNonPositive, defaults')
        else (None, defaults')
    end.

(** A key and a value the loop accepts. *)
Definition acceptable (k : Z) (v : string) : Prop :=
  0 <= k /\ validateSeverity v = None.

(** *** Sample configurations *)

(** A map of a configuration file: spellings to be made canonical. *)
Definition spelledSeverityMap : gmap Z string :=
  <[0 := "Info"]> (<[4 := " WARN "]> (<[8 := "crit"]> ∅)).

(** The defaults of a configuration file, before validation. *)
Definition spelledDefaults : Main.Defaults :=
  {| Main.DefaultAlertName := " "; Main.TTL := 60;
     Main.DefaultSeverityFromPriority := spelledSeverityMap;
     Main.DefaultLabels := ∅ |}.

Definition plainApp : Server.App :=
  {| Server.Name := "backup"; Server.ID := 1; Server.AlertName := "";
     Server.Labels := ∅; Server.SeverityFromPriority := ∅ |}.

Definition plainMessage : Gotify.MessageRequest :=
  {| Gotify.Message := "disk full"; Gotify.Title := ""; Gotify.Priority := 5;
     Gotify.Extras := None |}.

End Config.

(** * Properties *)

(** ** Severity resolution *)

Section Severity.
Import Main.

Implicit Types (m : gmap Z string) (p k : Z) (l : list Z).

Lemma severityStep_first p st k :
  bestSet st = false -> severityStep p st k = Best k true.
Proof. intros H. unfold severityStep. now rewrite H. Qed.

Lemma severityStep_bestOf p l st k :
  bestOf p l st -> bestOf p (l ++ [k]) (severityStep p st k).
Proof.
  intros (Hset & Hin & Hle & Hgt). unfold severityStep. rewrite Hset. simpl.
  assert (Hmem : forall x, x ∈ l ++ [k] <-> x ∈ l \/ x = k).
  { intros x. rewrite elem_of_app, list_elem_of_singleton. tauto. }
  destruct (Z.leb_spec k p) as [Hkp|Hkp];
    destruct (Z.leb_spec (bestKey st) p) as [Hbp|Hbp]; simpl.
  - destruct (Z.gtb_spec k (bestKey st)) as [Hkb|Hkb]; unfold bestOf; simpl.
    + split; [done|]. split; [apply Hmem; by right|].
      split; [|lia]. intros _ x [Hx| ->]%Hmem Hxp; [|lia].
      specialize (Hle Hbp x Hx Hxp). lia.
    + split; [done|]. split; [apply Hmem; by left|].
      split; [|lia]. intros _ x [Hx| ->]%Hmem Hxp; [|lia]. by apply Hle.
  - destruct (Z.gtb_spec (bestKey st) p) as [_|?]; [|lia].
    destruct (Z.ltb_spec k (bestKey st)) as [_|?]; [|lia].
    unfold bestOf; simpl.
    split; [done|]. split; [apply Hmem; by right|].
    split; [|lia]. intros _ x [Hx| ->]%Hmem Hxp; [|lia].
    specialize (Hgt Hbp x Hx). lia.
  - destruct (Z.gtb_spec (bestKey st) p) as [?|_]; [lia|]. simpl.
    unfold bestOf. split; [done|]. split; [apply Hmem; by left|].
    split; [|lia]. intros _ x [Hx| ->]%Hmem Hxp; [|lia]. by apply Hle.
  - destruct (Z.gtb_spec (bestKey st) p) as [_|?]; [|lia].
    destruct (Z.ltb_spec k (bestKey st)) as [Hkb|Hkb]; unfold bestOf; simpl.
    + split; [done|]. split; [apply Hmem; by right|].
      split; [lia|]. intros _ x [Hx| ->]%Hmem; [|lia].
      specialize (Hgt Hbp x Hx). lia.
    + split; [done|]. split; [apply Hmem; by left|].
      split; [lia|]. intros _ x [Hx| ->]%Hmem; [|lia]. by apply Hgt.
Qed.

Lemma severity_fold_bestOf p l :
  l <> [] -> bestOf p l (fold_left (severityStep p) l (Best 0 false)).
Proof.
  induction l as [|k l IH] using rev_ind; [done|]. intros _.
  rewrite fold_left_app. simpl.
  destruct l as [|k0 l].
  - simpl. rewrite severityStep_first by done.
    unfold bestOf; simpl. split; [done|]. split; [by apply list_elem_of_singleton|].
    split; intros _ x ->%list_elem_of_singleton; lia.
  - apply severityStep_bestOf, IH. done.
Qed.

Lemma rangeOrder_elem m l k :
  rangeOrder m l -> k ∈ l <-> is_Some (m !! k).
Proof.
  unfold rangeOrder. intros ->. rewrite list_elem_of_fmap. split.
  - intros ([k' v] & -> & Hkv). apply elem_of_map_to_list in Hkv. by exists v.
  - intros [v Hv]. exists (k, v). split; [done|]. by apply elem_of_map_to_list.
Qed.

Lemma rangeOrder_nil m : rangeOrder m [] -> m = ∅.
Proof.
  intros H. apply map_eq. intros k. rewrite lookup_empty.
  destruct (m !! k) eqn:E; [|done].
  assert (k ∈ @nil Z) as Hk by (apply (rangeOrder_elem m); eauto).
  by apply elem_of_nil in Hk.
Qed.

(** C1. For a severity map with canonical values and a priority [p >= 0],
    [severityForPriority] returns a canonical severity, whatever order the
    [range] loop visits the keys in: the value at [p] when [p] is a key;
    otherwise the value at the greatest key at or below [p] when there is
    one; otherwise the value at the smallest key; and "info" for the empty
    map. *)
Theorem severityForPriority_resolves m order p :
  rangeOrder m order ->
  (forall k v, m !! k = Some v -> canonicalSeverity v) ->
  0 <= p ->
  let r := severityForPriorityIn order m p in
  canonicalSeverity r /\
  (forall v, m !! p = Some v -> r = v) /\
  ((exists k, is_Some (m !! k) /\ k <= p) ->
     exists k, greatestKeyBelow m p k /\ m !! k = Some r) /\
  (m <> ∅ -> (forall k, is_Some (m !! k) -> p < k) ->
     exists k, smallestKey m k /\ m !! k = Some r) /\
  (m = ∅ -> r = "info").
Proof.
  intros Hord Hcan _ r. subst r. unfold severityForPriorityIn.
  destruct (m !! p) as [v|] eqn:Hp.
  - split; [by eapply Hcan|]. split; [by intros ? [= ->]|].
    split; [|split].
    + intros _. exists p. split; [|done].
      split; [by eexists|]. split; [lia|]. by intros.
    + intros _ Hall. specialize (Hall p (ex_intro _ v Hp)). lia.
    + intros ->. by rewrite lookup_empty in Hp.
  - destruct order as [|k0 order].
    + apply rangeOrder_nil in Hord as ->. simpl. rewrite lookup_empty.
      split; [by left|]. split; [done|]. split; [|split]; [| |done].
      * intros (k & [v Hv] & _). by rewrite lookup_empty in Hv.
      * by intros [].
    + pose proof (severity_fold_bestOf p (k0 :: order) ltac:(done))
        as (_ & Hin & Hle & Hgt).
      set (st := fold_left (severityStep p) (k0 :: order) (Best 0 false)) in *.
      assert (Hkey : forall k, k ∈ k0 :: order <-> is_Some (m !! k))
        by (intros k; by apply rangeOrder_elem).
      destruct (proj1 (Hkey _) Hin) as [v Hv]. rewrite Hv.
      split; [by eapply Hcan|]. split; [done|]. split; [|split].
      * intros (k & Hk & Hkp). exists (bestKey st).
        destruct (Z.le_gt_cases (bestKey st) p) as [Hb|Hb].
        -- split; [|done]. split; [by eexists|]. split; [done|].
           intros k' Hk' Hk'p. apply Hle; [done| |done]. by apply Hkey.
        -- specialize (Hgt Hb k (proj2 (Hkey k) Hk)). lia.
      * intros _ Hall. exists (bestKey st). split; [|done].
        split; [by eexists|]. intros k' Hk'.
        apply Hgt; [|by apply Hkey]. apply Hall. by eexists.
      * intros ->. by rewrite lookup_empty in Hv.
Qed.

(** The resolution does not depend on the order of the visit. *)
Lemma severityForPriorityIn_order m order p :
  rangeOrder m order ->
  severityForPriorityIn order m p = severityForPriority m p.
Proof.
  intros Hord. unfold severityForPriority, severityForPriorityIn.
  destruct (m !! p); [done|].
  assert (Hself : rangeOrder m (map_to_list m).*1) by (unfold rangeOrder; done).
  destruct order as [|k0 order].
  { apply rangeOrder_nil in Hord as ->. by rewrite map_to_list_empty. }
  destruct ((map_to_list m).*1) as [|k1 keys] eqn:Hkeys.
  { apply rangeOrder_nil in Hself as ->.
    unfold rangeOrder in Hord. rewrite map_to_list_empty in Hord.
    symmetry in Hord. by apply Permutation_nil_cons in Hord. }
  pose proof (severity_fold_bestOf p (k0 :: order) ltac:(done))
    as (_ & Hin & Hle & Hgt).
  pose proof (severity_fold_bestOf p (k1 :: keys) ltac:(done))
    as (_ & Hin' & Hle' & Hgt').
  set (a := bestKey (fold_left _ (k0 :: order) _)) in *.
  set (b := bestKey (fold_left _ (k1 :: keys) _)) in *.
  assert (Hsame : forall k, k ∈ k0 :: order <-> k ∈ k1 :: keys).
  { intros k. rewrite (rangeOrder_elem m _ k Hord).
    by rewrite (rangeOrder_elem m _ k Hself). }
  assert (a = b) as ->; [|done].
  apply Hsame in Hin as Hina. apply Hsame in Hin' as Hinb.
  destruct (Z.le_gt_cases a p) as [Ha|Ha], (Z.le_gt_cases b p) as [Hb|Hb].
  - specialize (Hle Ha b Hinb Hb). specialize (Hle' Hb a Hina Ha). lia.
  - specialize (Hgt' Hb a Hina). lia.
  - specialize (Hgt Ha b Hinb). lia.
  - specialize (Hgt Ha b Hinb). specialize (Hgt' Hb a Hina). lia.
Qed.

Lemma severityForPriority_resolves_witness :
  rangeOrder testSeverityMap [5; 0; 2] /\
  (forall k v, testSeverityMap !! k = Some v -> canonicalSeverity v) /\
  0 <= 3 /\
  severityForPriorityIn [5; 0; 2] testSeverityMap 3 = "warning" /\
  (exists k, greatestKeyBelow testSeverityMap 3 k /\
             testSeverityMap !! k = Some "warning").
Proof.
  assert (Hord : rangeOrder testSeverityMap [5; 0; 2]).
  { unfold rangeOrder. apply NoDup_Permutation.
    - apply (bool_decide_unpack (NoDup [5; 0; 2])). by vm_compute.
    - apply NoDup_fst_map_to_list.
    - intros k. rewrite list_elem_of_fmap. split.
      + intros Hk. assert (is_Some (testSeverityMap !! k)) as [v Hv].
        { set_unfold in Hk. destruct Hk as [->|[->|[->|[]]]]; by eexists. }
        exists (k, v). split; [done|]. by apply elem_of_map_to_list.
      + intros ([k' v] & -> & Hkv%elem_of_map_to_list). simpl.
        unfold testSeverityMap in Hkv.
        repeat (apply lookup_insert_Some in Hkv as [[<- _]|[_ Hkv]];
                [set_solver|]).
        by rewrite lookup_empty in Hkv. }
  assert (Hcan : forall k v, testSeverityMap !! k = Some v -> canonicalSeverity v).
  { intros k v Hkv. unfold testSeverityMap, canonicalSeverity in *.
    repeat (apply lookup_insert_Some in Hkv as [[_ <-]|[_ Hkv]]; [tauto|]).
    by rewrite lookup_empty in Hkv. }
  split; [exact Hord|]. split; [exact Hcan|]. split; [lia|].
  split; [reflexivity|].
  destruct (severityForPriority_resolves testSeverityMap [5; 0; 2] 3
              Hord Hcan ltac:(lia)) as (_ & _ & Hbelow & _).
  apply Hbelow. exists 2. split; [by eexists|lia].
Defined.

End Severity.

(** ** The forwarder's labels and summary *)

Section Forwarder.
Import GoStrings Main.

(** C2. Whatever the default and the per-app label maps hold, the labels of
    the alert built for a message bind alertname, app, severity, priority
    and gotilert_id to the values the forwarder computes. *)
Theorem newForwarder_computed_labels_win defaults app msg messageIdentifier now :
  let labels :=
    Alertmanager.Labels (newForwarder defaults app msg messageIdentifier now) in
  labels !! "alertname" = Some (alertNameFor defaults app) /\
  labels !! "app" = Some (Server.Name app) /\
  labels !! "severity" =
    Some (severityForPriority (severityMapFor defaults app) (Gotify.Priority msg)) /\
  labels !! "priority" = Some (Itoa (Gotify.Priority msg)) /\
  labels !! "gotilert_id" = Some (FormatUint messageIdentifier).
Proof.
  unfold newForwarder. simpl.
  repeat split;
    repeat first [ done | rewrite lookup_insert_eq | rewrite lookup_insert_ne by done ].
Qed.

(** Every other label comes from the per-app map, then from the defaults. *)
Lemma newForwarder_other_labels defaults app msg messageIdentifier now key :
  key ∉ ["alertname"; "app"; "severity"; "priority"; "gotilert_id"] ->
  Alertmanager.Labels (newForwarder defaults app msg messageIdentifier now) !! key =
    match Server.Labels app !! key with
    | Some v => Some v
    | None => DefaultLabels defaults !! key
    end.
Proof.
  intros Hkey. unfold newForwarder. simpl.
  rewrite !lookup_insert_ne by (intros <-; apply Hkey; set_solver).
  unfold mergeStringMap, copyLabels.
  destruct (Nat.eqb_spec (size (Server.Labels app)) 0) as [Hz|_].
  - apply map_size_empty_iff in Hz. rewrite Hz, lookup_empty. done.
  - rewrite lookup_union. destruct (Server.Labels app !! key), (DefaultLabels defaults !! key); done.
Qed.

(** The summary, as the code computes it.  It is the trimmed title when
    that is not empty; otherwise the trimmed message, cut to its first 120 bytes
    and followed by the marker when it is longer than 120 bytes; otherwise
    the app name.  Lengths are counted in bytes, as [len] and slicing do.
    An empty title with a message of 130 letters a gives 120 letters a and
    the marker; the title x gives x whatever the message. *)
Theorem pickSummary_cases appName title message :
  let trimmedTitle := TrimSpace title in
  let trimmedMessage := TrimSpace message in
  (trimmedTitle <> "" -> pickSummary appName title message = trimmedTitle) /\
  (trimmedTitle = "" -> trimmedMessage = "" ->
     pickSummary appName title message = appName) /\
  (trimmedTitle = "" -> trimmedMessage <> "" -> len trimmedMessage <= 120 ->
     pickSummary appName title message = trimmedMessage) /\
  (trimmedTitle = "" -> 120 < len trimmedMessage ->
     pickSummary appName title message =
       sliceTo trimmedMessage 120 +:+ truncationMarker) /\
  pickSummary appName "" (repeatByte 130 "a") =
    repeatByte 120 "a" +:+ truncationMarker /\
  pickSummary appName "x" message = "x".
Proof.
  intros trimmedTitle trimmedMessage. unfold pickSummary.
  fold trimmedTitle trimmedMessage.
  assert (Hx : TrimSpace "x" = "x") by (by vm_compute).
  assert (He : TrimSpace "" = "") by (by vm_compute).
  assert (Ha : TrimSpace (repeatByte 130 "a") = repeatByte 130 "a") by (by vm_compute).
  rewrite Hx, He, Ha.
  split; [|split; [|split; [|split; [|split]]]]; try (by vm_compute).
  - intros Ht. by destruct (String.eqb_spec trimmedTitle "").
  - intros -> ->. done.
  - intros -> Hm Hl. simpl.
    destruct (String.eqb_spec trimmedMessage ""); [done|].
    by destruct (Z.leb_spec (len trimmedMessage) 120); [|lia].
  - intros -> Hl. simpl.
    destruct (String.eqb_spec trimmedMessage "") as [Hm|_].
    + rewrite Hm in Hl. by vm_compute in Hl.
    + by destruct (Z.leb_spec (len trimmedMessage) 120); [lia|].
Qed.

(** A message of 61 accented letters has 61 characters and 122 bytes: the
    summary is its first 120 bytes, 60 characters, and the marker. *)
Lemma pickSummary_counts_bytes_not_characters :
  TrimSpace sixtyOneAccented = sixtyOneAccented /\
  characters sixtyOneAccented = 61%nat /\
  len sixtyOneAccented = 122 /\
  pickSummary "app" "" sixtyOneAccented =
    sliceTo sixtyOneAccented 120 +:+ truncationMarker /\
  characters (sliceTo sixtyOneAccented 120) = 60%nat /\
  pickSummary "app" "" sixtyOneAccented <> sixtyOneAccented.
Proof. repeat split; by vm_compute. Qed.

(** C7. The code counts and cuts bytes where the claim counts characters,
    and the two differ.  The message made of the letter a and 61 letters
    e with an acute accent is trimmed, well-formed UTF-8, and has 62
    characters, no more than 120, so that by the claim it is the summary
    as it is.  It has 123 bytes, and with a blank title the code returns
    its first 120 bytes and the marker: the letter a, 59 accented letters,
    the first byte (0xC3) of the sixtieth without its second, and the
    marker.  That summary is not the message, and it is not well-formed
    UTF-8. *)
Theorem pickSummary_splits_character :
  TrimSpace accentedMessage = accentedMessage /\
  ValidString accentedMessage = true /\
  characters accentedMessage = 62%nat /\
  len accentedMessage = 123 /\
  pickSummary "app" "" accentedMessage =
    "a" +:+ repeatString 59 (ofBytes (map byteOf [195; 169]%nat))
        +:+ ofBytes [byteOf 195] +:+ truncationMarker /\
  pickSummary "app" "" accentedMessage <> accentedMessage /\
  ValidString (pickSummary "app" "" accentedMessage) = false.
Proof. repeat split; by vm_compute. Qed.

End Forwarder.

(** ** Token extraction *)

Section Token.
Import GoStrings Server.

(** C8. [extractToken] takes the trimmed X-Gotify-Key header when that is
    not empty; otherwise the trimmed token query parameter when that is not
    empty; otherwise, when the trimmed Authorization header begins with
    "bearer " in any letter case, the trimmed rest of it; otherwise the
    empty string.  With all three present the header's token is taken,
    without the header the query's, with the Authorization header alone
    the bearer's. *)
Theorem extractToken_precedence request :
  let headerToken := TrimSpace (valuesGet (Header request) "X-Gotify-Key") in
  let queryToken := TrimSpace (valuesGet (Query request) "token") in
  let authHeader := TrimSpace (valuesGet (Header request) "Authorization") in
  (headerToken <> "" -> extractToken request = headerToken) /\
  (headerToken = "" -> queryToken <> "" -> extractToken request = queryToken) /\
  (headerToken = "" -> queryToken = "" ->
     HasPrefix (ToLower authHeader) "bearer " = true ->
     extractToken request = TrimSpace (sliceFrom authHeader 7)) /\
  (headerToken = "" -> queryToken = "" ->
     HasPrefix (ToLower authHeader) "bearer " = false ->
     extractToken request = "") /\
  extractToken (requestWith ["HEADER"] ["QUERY"] ["Bearer BEARER"]) = "HEADER" /\
  extractToken (requestWith [] ["QUERY"] ["Bearer BEARER"]) = "QUERY" /\
  extractToken (requestWith [] [] ["Bearer BEARER"]) = "BEARER" /\
  extractToken (requestWith [] [] ["bEaReR  tok "]) = "tok" /\
  extractToken (requestWith [] [] ["Basic dXNlcg=="]) = "" /\
  extractToken (requestWith [] [] []) = "".
Proof.
  intros headerToken queryToken authHeader.
  split; [|split; [|split; [|split]]]; [| | | |repeat split; by vm_compute].
  - intros Hh. unfold extractToken. fold headerToken.
    by destruct (String.eqb_spec headerToken "").
  - intros Hh Hq. unfold extractToken. fold headerToken queryToken.
    rewrite Hh. simpl. by destruct (String.eqb_spec queryToken "").
  - intros Hh Hq Hp. unfold extractToken.
    fold headerToken queryToken authHeader. rewrite Hh, Hq. simpl.
    destruct (String.eqb_spec authHeader "") as [Ha|_].
    + rewrite Ha in Hp. by vm_compute in Hp.
    + unfold bearerPrefix. by rewrite Hp.
  - intros Hh Hq Hp. unfold extractToken.
    fold headerToken queryToken authHeader. rewrite Hh, Hq. simpl.
    destruct (String.eqb_spec authHeader ""); [done|].
    unfold bearerPrefix. by rewrite Hp.
Qed.

End Token.

(** ** Extras *)

Section Extras.
Import GoStrings Gotify.

Lemma walkPath_atPath current path v :
  walkPath current path = Some v <-> atPath current path v.
Proof.
  revert current. induction path as [|key rest IH]; intros current; simpl.
  - split; [intros [= ->]; constructor|]. by inversion 1.
  - split.
    + destruct current as [| | | | |m]; try done.
      destruct (m !! key) as [next|] eqn:Hkey; [|done].
      intros Hw. econstructor; [done|]. by apply IH.
    + inversion 1 as [|m k next r v' Hkey Hrest]; subst.
      rewrite Hkey. by apply IH.
Qed.

Lemma atPath_functional current path v1 v2 :
  atPath current path v1 -> atPath current path v2 -> v1 = v2.
Proof.
  intros H1%walkPath_atPath H2%walkPath_atPath. congruence.
Qed.

(** [extrasStringAtPath] finds exactly the trimmed, non-empty strings at
    the end of a path. *)
Lemma extrasStringAtPath_spec extras path value :
  path <> [] ->
  extrasStringAtPath extras path = Some value <->
  exists raw, atPath (AMap (entries extras)) path (AString raw) /\
              value = TrimSpace raw /\ value <> "".
Proof.
  intros Hpath. unfold extrasStringAtPath.
  destruct path as [|key rest]; [done|]. simpl length. simpl orb.
  rewrite orb_false_r.
  destruct (Nat.eqb_spec (mapLen extras) 0) as [Hlen|Hlen].
  - split; [done|]. intros (raw & Hat & _).
    unfold mapLen in Hlen. apply map_size_empty_iff in Hlen.
    rewrite Hlen in Hat. inversion Hat; subst. by rewrite lookup_empty in *.
  - destruct (walkPath (AMap (entries extras)) (key :: rest)) as [found|] eqn:Hw.
    + apply walkPath_atPath in Hw.
      split.
      * destruct found as [raw| | | | |]; try done.
        destruct (String.eqb_spec (TrimSpace raw) "") as [|Hne]; [done|].
        intros [= <-]. by exists raw.
      * intros (raw & Hat & -> & Hne).
        rewrite (atPath_functional _ _ _ _ Hw Hat).
        by destruct (String.eqb_spec (TrimSpace raw) "").
    + split; [done|]. intros (raw & Hat%walkPath_atPath & _). congruence.
Qed.

Lemma wellKnownExtras_paths key path :
  (key, path) ∈ wellKnownExtras -> path <> [].
Proof.
  unfold wellKnownExtras. intros H. set_unfold in H.
  destruct H as [[= _ ->]|[[= _ ->]|[[= _ ->]|[[= _ ->]|[]]]]]; done.
Qed.

(** The result of [ExtrasAnnotations], key by key. *)
Lemma ExtrasAnnotations_lookup extras key path :
  (key, path) ∈ wellKnownExtras ->
  entries (ExtrasAnnotations extras) !! key = extrasStringAtPath extras path.
Proof.
  intros Hin. unfold ExtrasAnnotations.
  destruct (Nat.eqb_spec (mapLen extras) 0) as [Hlen|Hlen].
  - simpl. rewrite lookup_empty. unfold extrasStringAtPath.
    apply Nat.eqb_eq in Hlen. by rewrite Hlen.
  - simpl. unfold wellKnownExtras in Hin. set_unfold in Hin.
    unfold AnnotationGotifyContentType, AnnotationGotifyClickURL,
      AnnotationGotifyBigImageURL, AnnotationGotifyOnReceiveIntentURL in *.
    destruct Hin as [[= -> ->]|[[= -> ->]|[[= -> ->]|[[= -> ->]|[]]]]];
      unfold setIfFound;
      repeat match goal with
             | |- context [match ?x with Some _ => _ | None => _ end] =>
                 destruct x eqn:?
             end;
      by simplify_map_eq.
Qed.

Lemma ExtrasAnnotations_keys extras key value :
  entries (ExtrasAnnotations extras) !! key = Some value ->
  exists path, (key, path) ∈ wellKnownExtras.
Proof.
  unfold ExtrasAnnotations.
  destruct (Nat.eqb_spec (mapLen extras) 0) as [Hlen|Hlen]; simpl.
  - by rewrite lookup_empty.
  - unfold setIfFound, wellKnownExtras.
    unfold AnnotationGotifyContentType, AnnotationGotifyClickURL,
      AnnotationGotifyBigImageURL, AnnotationGotifyOnReceiveIntentURL.
    intros H.
    repeat match type of H with
           | context [match ?x with Some _ => _ | None => _ end] =>
               destruct x eqn:?
           end;
      repeat (apply lookup_insert_Some in H as [[<- _]|[_ H]];
              [eexists; repeat first [apply list_elem_of_here
                                     |apply list_elem_of_further]|]);
      by rewrite lookup_empty in H.
Qed.

(** C10. For every extras tree, the nil one too, [ExtrasAnnotations]
    returns a map that is not nil; its keys are among the four annotation
    keys; each value is the trimmed, non-empty string at the end of its
    key's path; and a path that ends in a string empty after trimming, in
    a value that is not a string, or that cannot be followed (a node
    missing or not a map), gives no entry. *)
Theorem ExtrasAnnotations_wellKnown extras :
  exists annotations : gmap string string,
    ExtrasAnnotations extras = Some annotations /\
    (forall key value, annotations !! key = Some value ->
       exists path raw,
         (key, path) ∈ wellKnownExtras /\
         atPath (AMap (entries extras)) path (AString raw) /\
         value = TrimSpace raw /\ value <> "") /\
    (forall key path raw,
       (key, path) ∈ wellKnownExtras ->
       atPath (AMap (entries extras)) path (AString raw) ->
       TrimSpace raw <> "" ->
       annotations !! key = Some (TrimSpace raw)) /\
    (forall key path,
       (key, path) ∈ wellKnownExtras ->
       (forall raw, atPath (AMap (entries extras)) path (AString raw) ->
                    TrimSpace raw = "") ->
       annotations !! key = None).
Proof.
  destruct (ExtrasAnnotations extras) as [annotations|] eqn:Hres.
  2: { unfold ExtrasAnnotations in Hres. by destruct (mapLen extras =? 0)%nat. }
  exists annotations. split; [done|].
  assert (Hlook : forall key path, (key, path) ∈ wellKnownExtras ->
            annotations !! key = extrasStringAtPath extras path).
  { intros key path Hin. rewrite <- (ExtrasAnnotations_lookup extras key path Hin).
    by rewrite Hres. }
  split; [|split].
  - intros key value Hkv.
    destruct (ExtrasAnnotations_keys extras key value) as [path Hin].
    { by rewrite Hres. }
    rewrite (Hlook key path Hin) in Hkv.
    apply extrasStringAtPath_spec in Hkv as (raw & ? & ? & ?);
      [|by eapply wellKnownExtras_paths].
    by exists path, raw.
  - intros key path raw Hin Hat Hne. rewrite (Hlook key path Hin).
    apply extrasStringAtPath_spec; [by eapply wellKnownExtras_paths|].
    by exists raw.
  - intros key path Hin Hnone. rewrite (Hlook key path Hin).
    destruct (extrasStringAtPath extras path) as [value|] eqn:Hv; [|done].
    apply extrasStringAtPath_spec in Hv as (raw & Hat & -> & Hne);
      [|by eapply wellKnownExtras_paths].
    by specialize (Hnone raw Hat).
Qed.

End Extras.

(** ** Backoff *)

Section Backoff.
Import Alertmanager.

Lemma wrap64_id z : - 2 ^ 63 <= z <= maxInt64 -> wrap64 z = z.
Proof.
  unfold wrap64, maxInt64. intros Hz.
  rewrite Z.mod_small by lia. lia.
Qed.

(** Below the cap the loop doubles, until the cap is met. *)
Lemma backoffLoop_below remaining backoff maxBackoff :
  0 < backoff < maxBackoff -> 2 * maxBackoff <= maxInt64 ->
  backoffLoop remaining backoff maxBackoff =
    Z.min (backoff * 2 ^ Z.of_nat remaining) maxBackoff.
Proof.
  revert backoff. induction remaining as [|r IH]; intros backoff Hb Hm.
  - simpl. destruct (Z.gtb_spec backoff maxBackoff); lia.
  - cbn [backoffLoop]. rewrite wrap64_id by (unfold maxInt64 in *; lia).
    rewrite Nat2Z.inj_succ, Z.pow_succ_r by lia.
    assert (1 <= 2 ^ Z.of_nat r) by (apply (Z.pow_le_mono_r 2 0); lia).
    destruct (Z.geb_spec (backoff * 2) maxBackoff) as [Hge|Hlt].
    + rewrite Z.min_r; [done|]. nia.
    + rewrite IH by lia. f_equal. lia.
Qed.

Lemma computeBackoff_later attempt initial maxBackoff :
  2 <= attempt -> 0 < initial -> 0 < maxBackoff ->
  2 * initial <= maxInt64 -> 2 * maxBackoff <= maxInt64 ->
  computeBackoff attempt initial maxBackoff =
    Z.min (initial * 2 ^ (attempt - 1)) maxBackoff.
Proof.
  intros Hn Hi Hm Hi2 Hm2. unfold computeBackoff.
  destruct (Z.leb_spec attempt 1); [lia|].
  destruct (Z.to_nat (attempt - 1)) as [|r] eqn:Hr; [lia|].
  assert (Hpow : attempt - 1 = Z.succ (Z.of_nat r)) by lia.
  rewrite Hpow, Z.pow_succ_r by lia.
  assert (1 <= 2 ^ Z.of_nat r) by (apply (Z.pow_le_mono_r 2 0); lia).
  cbn [backoffLoop]. rewrite wrap64_id by (unfold maxInt64 in *; lia).
  destruct (Z.geb_spec (initial * 2) maxBackoff) as [Hge|Hlt].
  - rewrite Z.min_r; [done|]. nia.
  - rewrite backoffLoop_below by lia. f_equal. lia.
Qed.

(** C5, as the code has it.  While doubling stays within [int64] (both
    values at most half of the greatest duration), the backoff of attempt 1
    is the initial value, also when that exceeds the maximum; the backoff
    of a later attempt is the double of the one before, capped at the
    maximum, that is min(initial * 2^(attempt-1), maximum); for attempt 1
    this closed form holds when the initial value is within the maximum.
    The defaults give 200 ms, 400 ms, 800 ms, then 1 s. *)
Theorem computeBackoff_doubles attempt initial maxBackoff :
  1 <= attempt -> 0 < initial -> 0 < maxBackoff ->
  2 * initial <= maxInt64 -> 2 * maxBackoff <= maxInt64 ->
  computeBackoff 1 initial maxBackoff = initial /\
  (2 <= attempt ->
     computeBackoff attempt initial maxBackoff =
       Z.min (2 * computeBackoff (attempt - 1) initial maxBackoff) maxBackoff /\
     computeBackoff attempt initial maxBackoff =
       Z.min (initial * 2 ^ (attempt - 1)) maxBackoff) /\
  (initial <= maxBackoff ->
     computeBackoff attempt initial maxBackoff =
       Z.min (initial * 2 ^ (attempt - 1)) maxBackoff) /\
  map (fun n => computeBackoff n defaultRetryInitial defaultRetryMaxBackoff)
      [1; 2; 3; 4; 5] =
    [200 * Millisecond; 400 * Millisecond; 800 * Millisecond; 1 * Second; 1 * Second].
Proof.
  intros Hn Hi Hm Hi2 Hm2.
  split; [done|]. split; [|split; [|by vm_compute]].
  - intros Hn2. split; [|by apply computeBackoff_later].
    rewrite computeBackoff_later by done.
    destruct (Z.eq_dec attempt 2) as [->|Hne].
    + change (computeBackoff (2 - 1) initial maxBackoff) with initial.
      f_equal. lia.
    + rewrite computeBackoff_later by lia.
      replace (attempt - 1) with (Z.succ (attempt - 1 - 1)) at 1 by lia.
      rewrite Z.pow_succ_r by lia. lia.
  - intros Hle. destruct (Z.eq_dec attempt 1) as [->|Hne].
    + change (computeBackoff 1 initial maxBackoff) with initial.
      change (2 ^ (1 - 1)) with 1. lia.
    + apply computeBackoff_later; lia.
Qed.

Lemma computeBackoff_doubles_witness :
  computeBackoff 1 (200 * Millisecond) (1 * Second) = 200 * Millisecond /\
  computeBackoff 3 (200 * Millisecond) (1 * Second) =
    Z.min (200 * Millisecond * 2 ^ (3 - 1)) (1 * Second) /\
  computeBackoff 3 (200 * Millisecond) (1 * Second) = 800 * Millisecond.
Proof.
  destruct (computeBackoff_doubles 3 (200 * Millisecond) (1 * Second))
    as (H1 & H2 & _); [lia|by vm_compute|by vm_compute|by vm_compute|by vm_compute|].
  split; [exact H1|]. split; [apply H2; lia|by vm_compute].
Defined.

(** The closed form of the claim fails for attempt 1 when the initial
    value exceeds the maximum, and doubling can leave [int64]. *)
Lemma computeBackoff_not_min :
  computeBackoff 1 5 3 = 5 /\ Z.min (5 * 2 ^ (1 - 1)) 3 = 3 /\
  computeBackoff 2 (2 ^ 62) maxInt64 = - 2 ^ 63 /\
  Z.min (2 ^ 62 * 2 ^ (2 - 1)) maxInt64 = maxInt64.
Proof. repeat split; by vm_compute. Qed.

End Backoff.

(** ** Classification *)

Section Classification.
Import Alertmanager.

(** The error [postAlertsOnce] returns for a non-2xx response retries on
    429 and on every code from 500 up. *)
Lemma shouldRetry_status code body :
  shouldRetry (Some (Wrap [ErrUpstreamNon2xx; Status code body])) =
    (code =? StatusTooManyRequests) || (code >=? StatusInternalServerError).
Proof.
  unfold shouldRetry, errorsIs, errorsAs, isPermanentTLSError. simpl.
  by destruct (code =? StatusTooManyRequests).
Qed.

(** C4 at a response with status 600: the error is a status error whose
    code is neither 429 nor within 500..599, and [shouldRetry] accepts it. *)
Theorem shouldRetry_status_600 :
  postAlertsOnce (Response 600 "600" (ReadAll "")) =
    Some (Wrap [ErrUpstreamNon2xx; Status 600 "600"]) /\
  shouldRetry (Some (Wrap [ErrUpstreamNon2xx; Status 600 "600"])) = true /\
  (600 =? 429) || ((500 <=? 600) && (600 <=? 599)) = false.
Proof. repeat split; by vm_compute. Qed.

(** The other classes of the claim, on the errors of the repository's
    tests and of [postAlertsOnce]. *)
Lemma shouldRetry_classes :
  shouldRetry None = false /\
  (forall code body, code = 429 \/ 500 <= code <= 599 ->
     shouldRetry (Some (Wrap [ErrUpstreamNon2xx; Status code body])) = true) /\
  (forall code body, code <> 429 -> code < 500 ->
     shouldRetry (Some (Wrap [ErrUpstreamNon2xx; Status code body])) = false) /\
  shouldRetry (Some (Wrap [ErrDoRequest; Canceled])) = false /\
  shouldRetry (Some (Wrap [ErrDoRequest; DeadlineExceeded])) = false /\
  shouldRetry (Some (Wrap [ErrDoRequest; NetDNS true])) = true /\
  shouldRetry (Some (Wrap [ErrDoRequest; NetOp (Other "connection refused")])) = true /\
  shouldRetry (Some (Wrap [ErrDoRequest; X509UnknownAuthority])) = false /\
  shouldRetry (Some (Wrap [ErrDoRequest; X509Hostname])) = false /\
  shouldRetry (Some (Wrap [ErrDoRequest; X509CertificateInvalid])) = false /\
  shouldRetry (Some (Wrap [ErrDoRequest; X509SystemRoots])) = false /\
  shouldRetry (Some (Wrap [ErrDoRequest; TLSRecordHeader])) = false /\
  (forall text, shouldRetry (Some (Wrap [ErrDoRequest; Other text])) = false) /\
  (forall text, shouldRetry (Some (Other text)) = false) /\
  (forall e, shouldRetry (Some (Wrap [ErrEncodeRequest; Other e])) = false) /\
  (forall e, shouldRetry (Some (Wrap [ErrReadResponseBody; Other e])) = false).
Proof.
  split; [done|]. split; [|split].
  - intros code body Hc. rewrite shouldRetry_status.
    unfold StatusTooManyRequests, StatusInternalServerError.
    destruct (Z.eqb_spec code 429); [done|].
    destruct (Z.geb_spec code 500); [done|lia].
  - intros code body Hne Hlt. rewrite shouldRetry_status.
    unfold StatusTooManyRequests, StatusInternalServerError.
    destruct (Z.eqb_spec code 429); [done|].
    destruct (Z.geb_spec code 500); [lia|done].
  - repeat split; done.
Qed.

End Classification.

(** ** Delivery *)

Section Delivery.
Import GoStrings Alertmanager.

Implicit Types (w : World) (client : Client) (n : Z).

(** The outcomes of one exchange. *)
Lemma non2xx_spec code : non2xx code = true <-> code < 200 \/ 300 <= code.
Proof.
  unfold non2xx, StatusOK, StatusMultipleChoices.
  destruct (Z.ltb_spec code 200), (Z.geb_spec code 300); cbn [orb]; split;
    first [done | lia].
Qed.

Lemma postAlertsOnce_non2xx code status data :
  code < 200 \/ 300 <= code ->
  postAlertsOnce (Response code status (ReadAll data)) =
    Some (Wrap [ErrUpstreamNon2xx; Status code (errorBody status data)]).
Proof.
  intros Hc%non2xx_spec. cbn [postAlertsOnce]. by rewrite Hc.
Qed.

Lemma postAlertsOnce_2xx code status body :
  200 <= code < 300 -> postAlertsOnce (Response code status body) = None.
Proof.
  intros Hc. cbn [postAlertsOnce].
  destruct (non2xx code) eqn:E; [|done]. apply non2xx_spec in E. lia.
Qed.

(** The five ways one iteration of the loop ends. *)
Lemma postAlertsLoop_success w client attempts remaining attempt :
  postAlertsOnce (exchangeAt w attempt) = None ->
  postAlertsLoop w client attempts (S remaining) attempt = (None, [EvAttempt attempt]).
Proof. intros H. cbn [postAlertsLoop]. by rewrite H. Qed.

Lemma postAlertsLoop_ctx_done w client attempts remaining attempt e c :
  postAlertsOnce (exchangeAt w attempt) = Some e ->
  ctxErrAfter w attempt = Some c ->
  postAlertsLoop w client attempts (S remaining) attempt =
    (Some (Wrap [ErrDoRequest; ctxErrOf c]), [EvAttempt attempt; EvCtxDone attempt]).
Proof. intros H Hc. cbn [postAlertsLoop]. by rewrite H, Hc. Qed.

Lemma postAlertsLoop_give_up w client attempts remaining attempt e :
  postAlertsOnce (exchangeAt w attempt) = Some e ->
  ctxErrAfter w attempt = None ->
  shouldRetry (Some e) = false \/ attempt = attempts ->
  postAlertsLoop w client attempts (S remaining) attempt = (Some e, [EvAttempt attempt]).
Proof.
  intros H Hc Hstop. cbn [postAlertsLoop]. rewrite H, Hc.
  destruct Hstop as [->| ->]; [done|].
  by rewrite Z.eqb_refl, orb_true_r.
Qed.

Lemma postAlertsLoop_sleep_aborted w client attempts remaining attempt e c :
  postAlertsOnce (exchangeAt w attempt) = Some e ->
  ctxErrAfter w attempt = None ->
  shouldRetry (Some e) = true -> attempt <> attempts ->
  ctxDoneInSleep w attempt = Some c ->
  postAlertsLoop w client attempts (S remaining) attempt =
    (Some (Wrap [ErrDoRequest; Wrap [ErrContextDone; ctxErrOf c]]),
     [EvAttempt attempt;
      EvSleepAborted attempt
        (computeBackoff attempt (retryInitial client) (retryMaxBackoff client))]).
Proof.
  intros H Hc Hretry Hne Hs. cbn [postAlertsLoop]. rewrite H, Hc, Hretry, Hs.
  by destruct (Z.eqb_spec attempt attempts).
Qed.

Lemma postAlertsLoop_retry w client attempts remaining attempt e :
  postAlertsOnce (exchangeAt w attempt) = Some e ->
  ctxErrAfter w attempt = None ->
  shouldRetry (Some e) = true -> attempt <> attempts ->
  ctxDoneInSleep w attempt = None ->
  postAlertsLoop w client attempts (S remaining) attempt =
    ((postAlertsLoop w client attempts remaining (attempt + 1)).1,
     EvAttempt attempt
       :: EvSleep attempt
            (computeBackoff attempt (retryInitial client) (retryMaxBackoff client))
       :: (postAlertsLoop w client attempts remaining (attempt + 1)).2).
Proof.
  intros H Hc Hretry Hne Hs. cbn [postAlertsLoop]. rewrite H, Hc, Hretry, Hs.
  destruct (Z.eqb_spec attempt attempts); [done|]. simpl.
  by destruct (postAlertsLoop w client attempts remaining (attempt + 1)).
Qed.

(** Past its guard, a call is the loop. *)
Lemma PostAlerts_complete w client :
  complete client ->
  PostAlerts w (Some client) =
    postAlertsLoop w client (Z.max (retryMaxAttempts client) 1)
      (Z.to_nat (Z.max (retryMaxAttempts client) 1)) 1.
Proof. intros [Hh Hb]. unfold PostAlerts. by rewrite Hh, Hb. Qed.

(** The guard: no attempt, and the bare sentinel. *)
Lemma PostAlerts_incomplete w client :
  httpClient client = Nil \/ baseURL client = Nil ->
  PostAlerts w (Some client) = (Some ErrClientNil, []).
Proof.
  intros H. unfold PostAlerts.
  destruct H as [-> | ->]; [done|]. by rewrite orb_true_r.
Qed.

Lemma complete_dec client :
  complete client \/ httpClient client = Nil \/ baseURL client = Nil.
Proof.
  unfold complete. destruct (httpClient client), (baseURL client); auto.
Qed.

Lemma PostAlerts_New w : PostAlerts w (Some New) = postAlertsLoop w New 3 3 1.
Proof. reflexivity. Qed.

(** C3. With the retry settings of [New] and a caller context that is
    never done: when the upstream answers 500, 500 and then 200, the call
    performs exactly three attempts and returns nil; when it answers 400 to
    the first attempt, the call performs exactly one attempt and returns
    the status error, without a retry. *)
Theorem PostAlerts_retries_500_not_400 w :
  uncancelled w ->
  (forall s1 d1 s2 d2 s3 b3,
     exchangeAt w 1 = Response 500 s1 (ReadAll d1) ->
     exchangeAt w 2 = Response 500 s2 (ReadAll d2) ->
     exchangeAt w 3 = Response 200 s3 b3 ->
     (PostAlerts w (Some New)).1 = None /\
     attemptsOf (PostAlerts w (Some New)).2 = 3%nat /\
     (PostAlerts w (Some New)).2 =
       [EvAttempt 1; EvSleep 1 (200 * Millisecond);
        EvAttempt 2; EvSleep 2 (400 * Millisecond); EvAttempt 3]) /\
  (forall s d,
     exchangeAt w 1 = Response 400 s (ReadAll d) ->
     (exists body,
        (PostAlerts w (Some New)).1 = Some (Wrap [ErrUpstreamNon2xx; Status 400 body])) /\
     attemptsOf (PostAlerts w (Some New)).2 = 1%nat /\
     (PostAlerts w (Some New)).2 = [EvAttempt 1]).
Proof.
  intros [Hctx Hsleep]. rewrite PostAlerts_New. split.
  - intros s1 d1 s2 d2 s3 b3 H1 H2 H3.
    pose proof (postAlertsOnce_non2xx 500 s1 d1 ltac:(lia)) as E1.
    pose proof (postAlertsOnce_non2xx 500 s2 d2 ltac:(lia)) as E2.
    rewrite <- H1 in E1. rewrite <- H2 in E2.
    rewrite (postAlertsLoop_retry _ _ _ _ _ _ E1)
      by (first [apply Hctx | apply Hsleep | by rewrite shouldRetry_status | done]).
    rewrite (postAlertsLoop_retry _ _ _ _ _ _ E2)
      by (first [apply Hctx | apply Hsleep | by rewrite shouldRetry_status | done]).
    assert (E3 : postAlertsOnce (exchangeAt w (1 + 1 + 1)) = None).
    { change (1 + 1 + 1) with 3. rewrite H3. by apply postAlertsOnce_2xx. }
    rewrite (postAlertsLoop_success _ _ _ _ _ E3). done.
  - intros s d H1.
    pose proof (postAlertsOnce_non2xx 400 s d ltac:(lia)) as E.
    rewrite <- H1 in E.
    rewrite (postAlertsLoop_give_up _ _ _ _ _ _ E)
      by (first [apply Hctx | left; by rewrite shouldRetry_status]).
    split; [by eexists|done].
Qed.

Lemma PostAlerts_retries_500_not_400_witness :
  uncancelled (upstreamAnswering [500; 500; 200]) /\
  PostAlerts (upstreamAnswering [500; 500; 200]) (Some New) =
    (None, [EvAttempt 1; EvSleep 1 (200 * Millisecond);
            EvAttempt 2; EvSleep 2 (400 * Millisecond); EvAttempt 3]) /\
  uncancelled (upstreamAnswering [400]) /\
  attemptsOf (PostAlerts (upstreamAnswering [400]) (Some New)).2 = 1%nat /\
  (exists body, (PostAlerts (upstreamAnswering [400]) (Some New)).1 =
                  Some (Wrap [ErrUpstreamNon2xx; Status 400 body])).
Proof.
  assert (H1 : uncancelled (upstreamAnswering [500; 500; 200])) by done.
  assert (H2 : uncancelled (upstreamAnswering [400])) by done.
  destruct (PostAlerts_retries_500_not_400 _ H1) as [Ha _].
  destruct (PostAlerts_retries_500_not_400 _ H2) as [_ Hb].
  specialize (Ha "" "" "" "" "" (ReadAll "") eq_refl eq_refl eq_refl)
    as (Hr & _ & Hev).
  specialize (Hb "" "" eq_refl) as (Hbody & Hn & _).
  split; [exact H1|]. split.
  - rewrite <- Hr, <- Hev. by destruct (PostAlerts _ _).
  - split; [exact H2|]. split; [exact Hn|exact Hbody].
Defined.

(** Every iteration ends in one of four shapes. *)
Lemma postAlertsLoop_cases w client attempts remaining a :
  (exists r, postAlertsLoop w client attempts (S remaining) a = (r, [EvAttempt a])) \/
  (exists r, postAlertsLoop w client attempts (S remaining) a =
               (r, [EvAttempt a; EvCtxDone a])) \/
  (exists r d, postAlertsLoop w client attempts (S remaining) a =
                 (r, [EvAttempt a; EvSleepAborted a d])) \/
  (exists d, postAlertsLoop w client attempts (S remaining) a =
               ((postAlertsLoop w client attempts remaining (a + 1)).1,
                EvAttempt a :: EvSleep a d
                  :: (postAlertsLoop w client attempts remaining (a + 1)).2)).
Proof.
  cbn [postAlertsLoop].
  destruct (postAlertsOnce (exchangeAt w a)) as [e|]; [|left; by eexists].
  destruct (ctxErrAfter w a); [right; left; by eexists|].
  destruct (negb (shouldRetry (Some e)) || (a =? attempts)); [left; by eexists|].
  destruct (ctxDoneInSleep w a); simpl.
  - right; right; left. by do 2 eexists.
  - right; right; right. eexists.
    by destruct (postAlertsLoop w client attempts remaining (a + 1)).
Qed.

(** The attempts of the loop are numbered from its first one up. *)
Lemma postAlertsLoop_attempts_from w client attempts remaining a n :
  EvAttempt n ∈ (postAlertsLoop w client attempts remaining a).2 -> a <= n.
Proof.
  revert a. induction remaining as [|r IH]; intros a; [by intros ?%elem_of_nil|].
  destruct (postAlertsLoop_cases w client attempts r a)
    as [[res ->]|[[res ->]|[(res & d & ->)|[d ->]]]]; simpl; intros Hin;
    set_unfold in Hin.
  - destruct Hin as [[= ->]|[]]. lia.
  - destruct Hin as [[= ->]|[[=]|[]]]. lia.
  - destruct Hin as [[= ->]|[[=]|[]]]. lia.
  - destruct Hin as [[= ->]|[[=]|Hin]]; [lia|].
    apply IH in Hin. lia.
Qed.

(** When the iteration of attempt [n] ends the loop, with result [R] and
    events [E], a call that performs attempt [n] ends there. *)
Lemma postAlertsLoop_stops_at w client attempts n R E :
  (forall remaining, postAlertsLoop w client attempts (S remaining) n = (R, E)) ->
  (forall k, EvAttempt k ∈ E -> k <= n) ->
  forall remaining a,
    EvAttempt n ∈ (postAlertsLoop w client attempts remaining a).2 ->
    (postAlertsLoop w client attempts remaining a).1 = R /\
    endsWith (postAlertsLoop w client attempts remaining a).2 E n.
Proof.
  intros Hstop HE. induction remaining as [|r IH]; intros a;
    [by intros ?%elem_of_nil|].
  destruct (Z.eq_dec a n) as [->|Hne].
  { rewrite Hstop. intros _. split; [done|]. split; [by exists []|done]. }
  destruct (postAlertsLoop_cases w client attempts r a)
    as [[res ->]|[[res ->]|[(res & d & ->)|[d ->]]]]; simpl; intros Hin;
    set_unfold in Hin.
  - destruct Hin as [[= ->]|[]]. done.
  - destruct Hin as [[= ->]|[[=]|[]]]. done.
  - destruct Hin as [[= ->]|[[=]|[]]]. done.
  - destruct Hin as [[= ->]|[[=]|Hin]]; [done|].
    pose proof (postAlertsLoop_attempts_from _ _ _ _ _ _ Hin) as Hle.
    destruct (IH _ Hin) as (HR & [before Hev] & Hk).
    split; [done|]. split.
    + exists (EvAttempt a :: EvSleep a d :: before). by rewrite Hev.
    + intros k Hkin. set_unfold in Hkin.
      destruct Hkin as [[= ->]|[[=]|Hkin]]; [lia|]. by apply Hk.
Qed.

(** C6. A call that performs attempt [n] and sees it fail performs no
    attempt after it once the caller's context is done: when the context
    is done on return from the attempt, the call returns at once the
    context's error under the do-request sentinel; when the attempt would
    be retried and the context becomes done during the backoff sleep, the
    sleep is cut short and the call returns that error.  Both results are
    classified as cancellation, and neither is retried. *)
Theorem PostAlerts_stops_on_cancellation w client n e c :
  performs w client n ->
  postAlertsOnce (exchangeAt w n) = Some e ->
  (ctxErrAfter w n = Some c ->
     (PostAlerts w (Some client)).1 = Some (Wrap [ErrDoRequest; ctxErrOf c]) /\
     endsWith (PostAlerts w (Some client)).2 [EvAttempt n; EvCtxDone n] n /\
     isCancellation (Wrap [ErrDoRequest; ctxErrOf c]) = true /\
     shouldRetry (PostAlerts w (Some client)).1 = false) /\
  (ctxErrAfter w n = None -> shouldRetry (Some e) = true ->
   n <> Z.max (retryMaxAttempts client) 1 ->
   ctxDoneInSleep w n = Some c ->
     (PostAlerts w (Some client)).1 =
       Some (Wrap [ErrDoRequest; Wrap [ErrContextDone; ctxErrOf c]]) /\
     (exists d, endsWith (PostAlerts w (Some client)).2
                  [EvAttempt n; EvSleepAborted n d] n) /\
     isCancellation (Wrap [ErrDoRequest; Wrap [ErrContextDone; ctxErrOf c]]) = true /\
     shouldRetry (PostAlerts w (Some client)).1 = false).
Proof.
  unfold performs. intros Hin He.
  assert (Hset : complete client).
  { destruct (complete_dec client) as [Hset|Hnil]; [done|].
    rewrite (PostAlerts_incomplete _ _ Hnil) in Hin. by apply elem_of_nil in Hin. }
  rewrite (PostAlerts_complete _ _ Hset) in *. split.
  - intros Hc.
    assert (Hstop : forall r,
              postAlertsLoop w client (Z.max (retryMaxAttempts client) 1) (S r) n =
                (Some (Wrap [ErrDoRequest; ctxErrOf c]), [EvAttempt n; EvCtxDone n]))
      by (intros r; by apply postAlertsLoop_ctx_done with (e := e)).
    assert (HE : forall k, EvAttempt k ∈ [EvAttempt n; EvCtxDone n] -> k <= n).
    { intros k Hk. set_unfold in Hk. destruct Hk as [[= ->]|[[=]|[]]]. lia. }
    destruct (postAlertsLoop_stops_at _ _ _ _ _ _ Hstop HE _ _ Hin) as [HR Hends].
    rewrite HR. split; [done|]. split; [done|]. by destruct c.
  - intros Hc Hretry Hne Hs.
    set (d := computeBackoff n (retryInitial client) (retryMaxBackoff client)).
    assert (Hstop : forall r,
              postAlertsLoop w client (Z.max (retryMaxAttempts client) 1) (S r) n =
                (Some (Wrap [ErrDoRequest; Wrap [ErrContextDone; ctxErrOf c]]),
                 [EvAttempt n; EvSleepAborted n d]))
      by (intros r; by apply postAlertsLoop_sleep_aborted with (e := e)).
    assert (HE : forall k, EvAttempt k ∈ [EvAttempt n; EvSleepAborted n d] -> k <= n).
    { intros k Hk. set_unfold in Hk. destruct Hk as [[= ->]|[[=]|[]]]. lia. }
    destruct (postAlertsLoop_stops_at _ _ _ _ _ _ Hstop HE _ _ Hin) as [HR Hends].
    rewrite HR. split; [done|]. split; [by exists d|]. by destruct c.
Qed.

Lemma PostAlerts_stops_on_cancellation_witness :
  performs (doneAfterFirst CtxDeadlineExceeded) New 1 /\
  PostAlerts (doneAfterFirst CtxDeadlineExceeded) (Some New) =
    (Some (Wrap [ErrDoRequest; DeadlineExceeded]), [EvAttempt 1; EvCtxDone 1]) /\
  performs (doneInFirstSleep CtxCanceled) New 1 /\
  PostAlerts (doneInFirstSleep CtxCanceled) (Some New) =
    (Some (Wrap [ErrDoRequest; Wrap [ErrContextDone; Canceled]]),
     [EvAttempt 1; EvSleepAborted 1 (200 * Millisecond)]) /\
  attemptsOf (PostAlerts (doneInFirstSleep CtxCanceled) (Some New)).2 = 1%nat.
Proof.
  assert (P1 : performs (doneAfterFirst CtxDeadlineExceeded) New 1).
  { unfold performs. vm_compute. apply list_elem_of_here. }
  assert (P2 : performs (doneInFirstSleep CtxCanceled) New 1).
  { unfold performs. vm_compute. apply list_elem_of_here. }
  destruct (PostAlerts_stops_on_cancellation
              (doneAfterFirst CtxDeadlineExceeded) New 1
              (Wrap [ErrUpstreamNon2xx; Status 503 ""]) CtxDeadlineExceeded
              P1 eq_refl) as [Ha _].
  destruct (PostAlerts_stops_on_cancellation
              (doneInFirstSleep CtxCanceled) New 1
              (Wrap [ErrUpstreamNon2xx; Status 503 ""]) CtxCanceled
              P2 eq_refl) as [_ Hb].
  specialize (Ha eq_refl) as (Hr1 & _).
  specialize (Hb eq_refl eq_refl ltac:(by vm_compute) eq_refl) as (Hr2 & _).
  split; [exact P1|]. split; [|split; [exact P2|split]].
  - apply injective_projections; [exact Hr1|by vm_compute].
  - apply injective_projections; [exact Hr2|by vm_compute].
  - by vm_compute.
Defined.

End Delivery.

(** ** Forwarding ids *)

Section ForwardingID.
Import Server.

Implicit Types (hs : list handler) (p : process).

Lemma countIf_le f hs : (countIf f hs <= length hs)%nat.
Proof. induction hs as [|h hs IH]; simpl; [lia|]. destruct (f h); lia. Qed.

Lemma countIf_insert f hs i h h' :
  hs !! i = Some h ->
  (countIf f (<[i := h']> hs) + (if f h then 1 else 0) =
   countIf f hs + (if f h' then 1 else 0))%nat.
Proof.
  revert i. induction hs as [|h0 hs IH]; intros [|i]; simpl; try done.
  - intros [= ->]. destruct (f h), (f h'); lia.
  - intros Hi. specialize (IH i Hi). destruct (f h0); lia.
Qed.

Lemma countIf_arrived_allocated hs :
  (countIf isArrived hs + countIf isAllocated hs <= length hs)%nat.
Proof. induction hs as [|[] hs IH]; simpl; lia. Qed.

Lemma countIf_pos f hs i h : hs !! i = Some h -> f h = true -> (0 < countIf f hs)%nat.
Proof.
  revert i. induction hs as [|h0 hs IH]; intros [|i]; simpl; try done.
  - intros [= ->] ->. lia.
  - intros Hi Hf. specialize (IH i Hi Hf). destruct (f h0); lia.
Qed.

Lemma started_counted accepted : counted (length accepted) (started accepted).
Proof.
  unfold started. split; simpl.
  - by rewrite length_map.
  - induction accepted as [|b l IH]; simpl; [done|]. exact IH.
  - intros i id Hi. apply list_lookup_fmap_Some in Hi as (b & ? & _). done.
  - intros i j id Hi. apply list_lookup_fmap_Some in Hi as (b & ? & _). done.
Qed.

Lemma step_counted n p p' :
  Z.of_nat n < 2 ^ 64 -> counted n p -> step p p' -> counted n p'.
Proof.
  intros Hn [Hlen Hc Hrange Hdist] Hstep.
  destruct Hstep as [c hs i Hi|c hs i Hi]; simpl in *.
  - pose proof (countIf_insert isAllocated hs i _ Refused Hi) as Hcount.
    simpl in Hcount. split; simpl.
    + by rewrite length_insert.
    + rewrite Hc. f_equal. lia.
    + intros k id Hk. destruct (decide (i = k)) as [->|Hne].
      * rewrite list_lookup_insert_eq in Hk by (by eapply lookup_lt_Some). done.
      * rewrite list_lookup_insert_ne in Hk by done. by eapply Hrange.
    + intros k j id Hk Hj.
      destruct (decide (i = k)) as [->|Hk'].
      { rewrite list_lookup_insert_eq in Hk by (by eapply lookup_lt_Some). done. }
      destruct (decide (i = j)) as [->|Hj'].
      { rewrite list_lookup_insert_eq in Hj by (by eapply lookup_lt_Some). done. }
      rewrite list_lookup_insert_ne in Hk, Hj by done. by eapply Hdist.
  - pose proof (countIf_insert isAllocated hs i _ (Allocated (uint64Add c 1)) Hi)
      as Hcount. simpl in Hcount.
    pose proof (countIf_pos isArrived hs i _ Hi eq_refl) as Hpos.
    pose proof (countIf_arrived_allocated hs) as Hsum.
    assert (Hadd : uint64Add c 1 = c + 1).
    { unfold uint64Add. apply Z.mod_small. lia. }
    rewrite Hadd. split; simpl.
    + by rewrite length_insert.
    + rewrite Hadd in Hcount. lia.
    + intros k id Hk. destruct (decide (i = k)) as [->|Hne].
      * rewrite list_lookup_insert_eq in Hk by (by eapply lookup_lt_Some).
        injection Hk as <-. lia.
      * rewrite list_lookup_insert_ne in Hk by done.
        specialize (Hrange k id Hk). lia.
    + intros k j id Hk Hj.
      destruct (decide (k = i)) as [->|Hk'], (decide (j = i)) as [->|Hj'];
        try done.
      * rewrite list_lookup_insert_eq in Hk by (by eapply lookup_lt_Some).
        rewrite list_lookup_insert_ne in Hj by done.
        injection Hk as <-. specialize (Hrange j _ Hj). lia.
      * rewrite list_lookup_insert_eq in Hj by (by eapply lookup_lt_Some).
        rewrite list_lookup_insert_ne in Hk by done.
        injection Hj as <-. specialize (Hrange k _ Hk). lia.
      * rewrite list_lookup_insert_ne in Hk, Hj by done. by eapply Hdist.
Qed.

Lemma reachable_counted accepted p :
  Z.of_nat (length accepted) < 2 ^ 64 ->
  reachable accepted p -> counted (length accepted) p.
Proof.
  intros Hn Hreach. unfold reachable in Hreach. revert p Hreach.
  apply (rtc_ind_r (counted (length accepted)) (started accepted)).
  - apply started_counted.
  - intros p1 p2 _ Hstep IH. by eapply step_counted.
Qed.

(** C9, as the code has it.  In every interleaving of the handlers of
    fewer than 2^64 requests, two handlers that were given a forwarding id
    were given different ones; the counter has moved once for each id
    given, and the ids given are the values 1 up to the counter. *)
Theorem messageID_distinct accepted p :
  Z.of_nat (length accepted) < 2 ^ 64 ->
  reachable accepted p ->
  (forall i j idi idj,
     i <> j ->
     handlers p !! i = Some (Allocated idi) ->
     handlers p !! j = Some (Allocated idj) ->
     idi <> idj) /\
  messageID p = Z.of_nat (countIf isAllocated (handlers p)) /\
  (forall i id, handlers p !! i = Some (Allocated id) -> 1 <= id <= messageID p).
Proof.
  intros Hn Hreach.
  destruct (reachable_counted accepted p Hn Hreach) as [_ Hc Hrange Hdist].
  split; [|done].
  intros i j idi idj Hne Hi Hj ->. by apply Hne, (Hdist i j idj).
Qed.

Lemma messageID_distinct_witness :
  Z.of_nat (length [true; false; true]) < 2 ^ 64 /\
  reachable [true; false; true]
    (Process 2 [Allocated 2; Arrived false; Allocated 1]) /\
  (1 : Z) <> 2.
Proof.
  assert (Hn : Z.of_nat (length [true; false; true]) < 2 ^ 64) by (by vm_compute).
  assert (Hreach : reachable [true; false; true]
                     (Process 2 [Allocated 2; Arrived false; Allocated 1])).
  { unfold reachable, started. simpl.
    eapply rtc_l; [apply (step_allocate _ _ 2%nat); reflexivity|].
    eapply rtc_l; [apply (step_allocate _ _ 0%nat); reflexivity|].
    apply rtc_refl. }
  split; [exact Hn|]. split; [exact Hreach|].
  destruct (messageID_distinct _ _ Hn Hreach) as [Hdist _].
  apply (Hdist 2%nat 0%nat); [lia|reflexivity|reflexivity].
Defined.

(** The handlers taken in turn. *)
Lemma inTurn_length k : length (inTurn k) = k.
Proof. unfold inTurn. by rewrite length_map, length_seq. Qed.

Lemma inTurn_S k :
  inTurn (S k) = inTurn k ++ [Allocated (Z.of_nat (S k) mod 2 ^ 64)].
Proof. unfold inTurn. by rewrite seq_S, map_app. Qed.

Lemma inTurn_lookup k i :
  (i < k)%nat -> inTurn k !! i = Some (Allocated (Z.of_nat (S i) mod 2 ^ 64)).
Proof.
  intros Hi. unfold inTurn.
  change (map ?f ?l) with (f <$> l).
  rewrite list_lookup_fmap, lookup_seq_lt by done. done.
Qed.

Lemma inTurn_reachable_upto k j :
  (j <= k)%nat ->
  rtc step (started (replicate k true))
    (Process (Z.of_nat j mod 2 ^ 64) (inTurn j ++ replicate (k - j) (Arrived true))).
Proof.
  induction j as [|j IH]; intros Hj.
  - unfold started. rewrite Nat.sub_0_r.
    change (map Arrived (replicate k true)) with (Arrived <$> replicate k true).
    rewrite fmap_replicate. apply rtc_refl.
  - eapply rtc_r; [apply IH; lia|].
    assert (Hrest : (k - j)%nat = S (k - S j)) by lia.
    rewrite Hrest. rewrite inTurn_S, <- app_assoc. simpl.
    assert (Hnew : uint64Add (Z.of_nat j mod 2 ^ 64) 1 = Z.of_nat (S j) mod 2 ^ 64).
    { unfold uint64Add. rewrite Zplus_mod_idemp_l. f_equal. lia. }
    rewrite <- Hnew.
    replace (inTurn j ++ Allocated (uint64Add (Z.of_nat j mod 2 ^ 64) 1)
               :: replicate (k - S j) (Arrived true))
      with (<[j := Allocated (uint64Add (Z.of_nat j mod 2 ^ 64) 1)]>
              (inTurn j ++ Arrived true :: replicate (k - S j) (Arrived true))).
    + apply step_allocate.
      rewrite lookup_app_r by (rewrite inTurn_length; lia).
      by rewrite inTurn_length, Nat.sub_diag.
    + rewrite insert_app_r_alt by (rewrite inTurn_length; lia).
      by rewrite inTurn_length, Nat.sub_diag.
Qed.

(** [k] requests, all accepted, handled one after the other. *)
Lemma inTurn_reachable k :
  reachable (replicate k true) (Process (Z.of_nat k mod 2 ^ 64) (inTurn k)).
Proof.
  unfold reachable.
  pose proof (inTurn_reachable_upto k k (Nat.le_refl k)) as H.
  by rewrite Nat.sub_diag, app_nil_r in H.
Qed.

Lemma nthMessageID_mod k : nthMessageID k = Z.of_N k mod 2 ^ 64.
Proof.
  unfold nthMessageID. induction k as [|k IH] using N.peano_ind; [done|].
  rewrite N.iter_succ, IH. unfold uint64Add.
  rewrite Zplus_mod_idemp_l. f_equal. lia.
Qed.

(** The claim as stated sets no bound: of 2^64 + 1 requests accepted one
    after the other, the first and the last are both given the id 1. *)
Lemma messageID_wraps :
  reachable (replicate (N.to_nat (2 ^ 64 + 1)) true)
    (Process (Z.of_nat (N.to_nat (2 ^ 64 + 1)) mod 2 ^ 64)
             (inTurn (N.to_nat (2 ^ 64 + 1)))) /\
  inTurn (N.to_nat (2 ^ 64 + 1)) !! O = Some (Allocated 1) /\
  inTurn (N.to_nat (2 ^ 64 + 1)) !! N.to_nat (2 ^ 64) = Some (Allocated 1) /\
  O <> N.to_nat (2 ^ 64) /\
  nthMessageID 1 = 1 /\ nthMessageID (2 ^ 64 + 1) = 1.
Proof.
  assert (Hlast : Z.of_nat (S (N.to_nat (2 ^ 64))) mod 2 ^ 64 = 1).
  { rewrite Nat2Z.inj_succ, N_nat_Z.
    change (Z.of_N (2 ^ 64)) with (1 * 2 ^ 64).
    unfold Z.succ. rewrite Z.add_comm, Z.mod_add by discriminate.
    reflexivity. }
  assert (Hlt : (N.to_nat (2 ^ 64) < N.to_nat (2 ^ 64 + 1))%nat).
  { apply Nat2Z.inj_lt. rewrite !N_nat_Z. reflexivity. }
  assert (Hpos : (0 < N.to_nat (2 ^ 64 + 1))%nat).
  { apply Nat2Z.inj_lt. rewrite N_nat_Z. reflexivity. }
  split; [apply inTurn_reachable|].
  split; [|split; [|split; [|split]]].
  - rewrite (inTurn_lookup _ _ Hpos). reflexivity.
  - rewrite (inTurn_lookup _ _ Hlt), Hlast. reflexivity.
  - intros Heq. apply (f_equal Z.of_nat) in Heq.
    rewrite N_nat_Z in Heq. discriminate Heq.
  - rewrite nthMessageID_mod. reflexivity.
  - rewrite nthMessageID_mod. reflexivity.
Qed.

End ForwardingID.

(** * Further properties *)

(** ** Delivery: attempts, results and sleeps *)

Section DeliveryBounds.
Import GoStrings Alertmanager.

Implicit Types (w : World) (client : Client).

(** An iteration, with the backoff it sleeps. *)
Lemma postAlertsLoop_cases_backoff w client attempts remaining a :
  (exists r, postAlertsLoop w client attempts (S remaining) a = (r, [EvAttempt a]) /\
             (r = None \/ exists l, r = Some (Wrap l))) \/
  (exists l, postAlertsLoop w client attempts (S remaining) a =
               (Some (Wrap l), [EvAttempt a; EvCtxDone a])) \/
  (exists l d, postAlertsLoop w client attempts (S remaining) a =
                 (Some (Wrap l), [EvAttempt a; EvSleepAborted a d])) \/
  (a <> attempts /\
   postAlertsLoop w client attempts (S remaining) a =
     ((postAlertsLoop w client attempts remaining (a + 1)).1,
      EvAttempt a
        :: EvSleep a (computeBackoff a (retryInitial client) (retryMaxBackoff client))
        :: (postAlertsLoop w client attempts remaining (a + 1)).2)).
Proof.
  cbn [postAlertsLoop].
  destruct (postAlertsOnce (exchangeAt w a)) as [e|] eqn:He.
  2: { left. eexists. split; [done|]. by left. }
  assert (Hwrap : exists l, e = Wrap l).
  { unfold postAlertsOnce in He.
    destruct (exchangeAt w a) as [x|x|x|code status body];
      try (injection He as <-; by eexists).
    destruct (non2xx code); [|done].
    destruct body; injection He as <-; by eexists. }
  destruct Hwrap as [l ->].
  destruct (ctxErrAfter w a); [right; left; by eexists|].
  destruct (Z.eqb_spec a attempts) as [Heq|Hne].
  { rewrite orb_true_r. left. eexists. split; [done|]. right. by eexists. }
  rewrite orb_false_r.
  destruct (shouldRetry (Some (Wrap l))); cbn [negb].
  2: { left. eexists. split; [done|]. right. by eexists. }
  destruct (ctxDoneInSleep w a); cbn [sleepWithContext].
  - right; right; left. by do 2 eexists.
  - right; right; right. split; [done|].
    by destruct (postAlertsLoop w client attempts remaining (a + 1)).
Qed.

Lemma attemptsFrom_S a count :
  attemptsFrom a (S count) = a :: attemptsFrom (a + 1) count.
Proof.
  unfold attemptsFrom. cbn [seq map]. f_equal; [lia|].
  rewrite <- seq_shift, map_map. apply map_ext. intros i. lia.
Qed.

Lemma postAlertsLoop_numbered w client attempts remaining a :
  let events := (postAlertsLoop w client attempts remaining a).2 in
  attemptNumbers events = attemptsFrom a (attemptsOf events) /\
  (attemptsOf events <= remaining)%nat /\
  (0 < remaining -> 0 < attemptsOf events)%nat.
Proof.
  revert a. induction remaining as [|r IH]; intros a; cbn zeta.
  - cbn. split; [done|lia].
  - destruct (postAlertsLoop_cases_backoff w client attempts r a)
      as [(res & -> & _)|[[l ->]|[(l & d & ->)|[_ ->]]]].
    + cbn. split; [|lia]. unfold attemptsFrom. cbn. f_equal. lia.
    + cbn. split; [|lia]. unfold attemptsFrom. cbn. f_equal. lia.
    + cbn. split; [|lia]. unfold attemptsFrom. cbn. f_equal. lia.
    + destruct (IH (a + 1)) as (Hnum & Hle & _).
      cbn [snd attemptNumbers attemptsOf].
      rewrite attemptsFrom_S, Hnum. split; [done|lia].
Qed.

Lemma refused_dec (receiver : option Client) :
  refused receiver \/ exists client, receiver = Some client /\ complete client.
Proof.
  destruct receiver as [client|]; [|by left].
  destruct (complete_dec client) as [Hset|Hnil]; [right; by exists client|by left].
Qed.

Lemma PostAlerts_refused w (receiver : option Client) :
  refused receiver -> PostAlerts w receiver = (Some ErrClientNil, []).
Proof.
  destruct receiver as [client|]; [apply PostAlerts_incomplete|done].
Qed.

(** X1. A call whose receiver is nil, or lacks its HTTP client or its base
    URL, performs no attempt and returns [ErrClientNil].  Every other call
    performs at least one attempt and at most max(retryMaxAttempts, 1) of
    them.  In both cases the attempts are numbered 1, 2, ... without a
    gap. *)
Theorem PostAlerts_attempts_bounded w (receiver : option Client) :
  let events := (PostAlerts w receiver).2 in
  attemptNumbers events = attemptsFrom 1 (attemptsOf events) /\
  (refused receiver -> PostAlerts w receiver = (Some ErrClientNil, [])) /\
  (forall client, receiver = Some client -> complete client ->
     (1 <= attemptsOf events)%nat /\
     Z.of_nat (attemptsOf events) <= Z.max (retryMaxAttempts client) 1).
Proof.
  cbn zeta. split; [|split].
  - destruct (refused_dec receiver) as [Hnil|(client & -> & Hset)].
    + by rewrite (PostAlerts_refused _ _ Hnil).
    + rewrite (PostAlerts_complete _ _ Hset). apply postAlertsLoop_numbered.
  - apply PostAlerts_refused.
  - intros client -> Hset. rewrite (PostAlerts_complete _ _ Hset).
    destruct (postAlertsLoop_numbered w client (Z.max (retryMaxAttempts client) 1)
                (Z.to_nat (Z.max (retryMaxAttempts client) 1)) 1) as (_ & Hle & Hpos).
    split; lia.
Qed.

End DeliveryBounds.

Section DeliveryResults.
Import GoStrings Alertmanager.

Implicit Types (w : World) (client : Client).

Lemma postAlertsLoop_success_inv w client attempts remaining a :
  postAlertsLoop w client attempts (S remaining) a = (None, [EvAttempt a]) ->
  postAlertsOnce (exchangeAt w a) = None.
Proof.
  cbn [postAlertsLoop]. destruct (postAlertsOnce (exchangeAt w a)); [|done].
  destruct (ctxErrAfter w a); [done|].
  destruct (negb _ || _); [done|].
  destruct (sleepWithContext _ _); [done|].
  by destruct (postAlertsLoop w client attempts remaining (a + 1)).
Qed.

(** While attempts are left, the loop ends inside an iteration. *)
Lemma postAlertsLoop_result w client attempts remaining a :
  Z.of_nat remaining = attempts - a + 1 -> (0 < remaining)%nat ->
  let r := postAlertsLoop w client attempts remaining a in
  (r.1 = None \/ exists l, r.1 = Some (Wrap l)) /\
  (r.1 = None ->
     exists before k, r.2 = before ++ [EvAttempt k] /\
                      postAlertsOnce (exchangeAt w k) = None).
Proof.
  revert a. induction remaining as [|r IH]; intros a Hrem Hpos; [lia|]. cbn zeta.
  destruct (postAlertsLoop_cases_backoff w client attempts r a)
    as [(res & E & Hres)|[[l E]|[(l & d & E)|[Hne E]]]].
  - rewrite E. cbn [fst snd]. split; [done|]. intros ->.
    exists [], a. split; [done|]. by eapply postAlertsLoop_success_inv.
  - rewrite E. cbn [fst snd]. split; [right; by eexists|done].
  - rewrite E. cbn [fst snd]. split; [right; by eexists|done].
  - rewrite E. cbn [fst snd].
    destruct (IH (a + 1)) as [Hshape Hnone]; [lia|lia|].
    split; [exact Hshape|]. intros Hres.
    destruct (Hnone Hres) as (before & k & Hev & Hk).
    exists (EvAttempt a
              :: EvSleep a (computeBackoff a (retryInitial client) (retryMaxBackoff client))
              :: before), k.
    split; [by rewrite Hev|done].
Qed.

(** X2. A call returns nil, [ErrClientNil] or a wrapped error, never the
    bare sentinel of the statement after the loop.  It returns
    [ErrClientNil] exactly when the receiver is nil or lacks its HTTP
    client or its base URL.  It returns nil exactly when its last attempt
    got a 2xx answer: a nil result ends on such an attempt, and an attempt
    that succeeds ends the call with nil. *)
Theorem PostAlerts_result w (receiver : option Client) :
  let r := PostAlerts w receiver in
  (r.1 = None \/ r.1 = Some ErrClientNil \/ exists l, r.1 = Some (Wrap l)) /\
  (r.1 = Some ErrDoRequest -> False) /\
  (r.1 = Some ErrClientNil <-> refused receiver) /\
  (r.1 = None ->
     exists before k, r.2 = before ++ [EvAttempt k] /\
                      postAlertsOnce (exchangeAt w k) = None) /\
  (forall k, EvAttempt k ∈ r.2 -> postAlertsOnce (exchangeAt w k) = None ->
     r.1 = None /\ exists before, r.2 = before ++ [EvAttempt k]).
Proof.
  cbn zeta.
  destruct (refused_dec receiver) as [Hnil|(client & -> & Hset)].
  { rewrite (PostAlerts_refused _ _ Hnil). cbn [fst snd].
    split; [by right; left|]. split; [done|]. split; [done|]. split; [done|].
    intros k Hin. by apply elem_of_nil in Hin. }
  rewrite (PostAlerts_complete _ _ Hset).
  set (attempts := Z.max (retryMaxAttempts client) 1).
  destruct (postAlertsLoop_result w client attempts (Z.to_nat attempts) 1)
    as [Hshape Hnone]; [lia|lia|].
  split; [destruct Hshape as [?|?]; by auto|].
  split; [by destruct Hshape as [->|[l ->]]|].
  split.
  { split.
    - by destruct Hshape as [->|[l ->]].
    - destruct Hset as [Hh Hb]. cbn [refused]. rewrite Hh, Hb. by intros [?|?]. }
  split; [exact Hnone|].
  intros k Hin Hk.
  assert (Hstop : forall r, postAlertsLoop w client attempts (S r) k =
                              (None, [EvAttempt k]))
    by (intros r; by apply postAlertsLoop_success).
  assert (HE : forall j, EvAttempt j ∈ [EvAttempt k] -> j <= k).
  { intros j Hj. apply list_elem_of_singleton in Hj. injection Hj as ->. lia. }
  destruct (postAlertsLoop_stops_at _ _ _ _ _ _ Hstop HE _ _ Hin) as [HR [Hends _]].
  done.
Qed.

End DeliveryResults.

Section DeliveryBudget.
Import GoStrings Alertmanager.

Implicit Types (w : World) (client : Client).

Lemma postAlertsLoop_sleeps w client attempts remaining a :
  Z.of_nat remaining = attempts - a + 1 ->
  let events := (postAlertsLoop w client attempts remaining a).2 in
  sleepsOf events =
    map (backoffAfter client) (attemptsFrom a (attemptsOf events - 1)).
Proof.
  revert a. induction remaining as [|r IH]; intros a Hrem; cbn zeta; [done|].
  destruct (postAlertsLoop_cases_backoff w client attempts r a)
    as [(res & -> & _)|[[l ->]|[(l & d & ->)|[Hne ->]]]]; try done.
  cbn [snd sleepsOf attemptsOf].
  rewrite IH by lia.
  destruct (postAlertsLoop_numbered w client attempts r (a + 1)) as (_ & _ & Hpos).
  destruct (attemptsOf (postAlertsLoop w client attempts r (a + 1)).2) as [|n] eqn:Hn.
  { exfalso. assert (0 < r)%nat by lia. specialize (Hpos ltac:(done)). lia. }
  cbn [Nat.sub]. rewrite Nat.sub_0_r, attemptsFrom_S. done.
Qed.

(** The events of one iteration. *)
Lemma postAlertsLoop_events w client attempts remaining a :
  let events := (postAlertsLoop w client attempts (S remaining) a).2 in
  events = [EvAttempt a] \/ events = [EvAttempt a; EvCtxDone a] \/
  events = [EvAttempt a; EvSleepAborted a (backoffAfter client a)] \/
  (a <> attempts /\
   events = EvAttempt a :: EvSleep a (backoffAfter client a)
              :: (postAlertsLoop w client attempts remaining (a + 1)).2).
Proof.
  cbn zeta. cbn [postAlertsLoop].
  destruct (postAlertsOnce (exchangeAt w a)) as [e|]; [|by left].
  destruct (ctxErrAfter w a); [by right; left|].
  destruct (Z.eqb_spec a attempts) as [Heq|Hne]; [rewrite orb_true_r; by left|].
  destruct (negb (shouldRetry (Some e))); [by left|]. cbn [orb].
  destruct (ctxDoneInSleep w a); cbn [sleepWithContext].
  - by right; right; left.
  - right; right; right. split; [done|].
    by destruct (postAlertsLoop w client attempts remaining (a + 1)).
Qed.

(** The events of the loop, in order: attempts that are each followed by
    their sleep, then a last attempt, then at most the event that ends
    the call. *)
Lemma postAlertsLoop_shape w client attempts remaining a :
  Z.of_nat remaining = attempts - a + 1 -> (0 < remaining)%nat ->
  exists (n : nat) tail,
    (postAlertsLoop w client attempts remaining a).2 =
      retried client a n ++ EvAttempt (a + Z.of_nat n) :: tail /\
    (tail = [] \/ tail = [EvCtxDone (a + Z.of_nat n)] \/
     tail = [EvSleepAborted (a + Z.of_nat n)
               (backoffAfter client (a + Z.of_nat n))]) /\
    a + Z.of_nat n <= attempts.
Proof.
  revert a. induction remaining as [|r IH]; intros a Hrem Hpos; [lia|].
  destruct (postAlertsLoop_events w client attempts r a) as [E|[E|[E|[Hne E]]]];
    cbn zeta in E.
  - exists O, []. rewrite E, Z.add_0_r. split; [done|]. split; [by left|lia].
  - exists O, [EvCtxDone a]. rewrite E, Z.add_0_r.
    split; [done|]. split; [by right; left|lia].
  - exists O, [EvSleepAborted a (backoffAfter client a)]. rewrite E, Z.add_0_r.
    split; [done|]. split; [by right; right|lia].
  - destruct (IH (a + 1)) as (n & tail & Hev & Htail & Hle); [lia|lia|].
    exists (S n), tail. rewrite E, Hev.
    replace (a + Z.of_nat (S n)) with (a + 1 + Z.of_nat n) by lia.
    split; [done|]. split; [exact Htail|exact Hle].
Qed.

(** X3. The events of a call, in order: some attempts that are each
    followed by one completed sleep of the backoff [computeBackoff] gives
    for that attempt, then a last attempt, then nothing more or the one
    event that ends the call (the context found done, or the sleep cut
    short).  So the call sleeps once between two consecutive attempts, and
    neither before the first attempt nor after the last.  With the
    settings of [New] that is at most three attempts and at most 600 ms of
    completed sleep. *)
Theorem PostAlerts_sleeps_between_attempts w client :
  complete client ->
  let events := (PostAlerts w (Some client)).2 in
  (exists (n : nat) tail,
     events = retried client 1 n ++ EvAttempt (Z.of_nat n + 1) :: tail /\
     (tail = [] \/ tail = [EvCtxDone (Z.of_nat n + 1)] \/
      tail = [EvSleepAborted (Z.of_nat n + 1)
                (computeBackoff (Z.of_nat n + 1) (retryInitial client)
                   (retryMaxBackoff client))]) /\
     Z.of_nat n + 1 <= Z.max (retryMaxAttempts client) 1) /\
  (retryMaxAttempts client = defaultRetryMaxAttempts ->
   retryInitial client = defaultRetryInitial ->
   retryMaxBackoff client = defaultRetryMaxBackoff ->
   (attemptsOf events <= 3)%nat /\ sumZ (sleepsOf events) <= 600 * Millisecond).
Proof.
  intros Hset. cbn zeta. rewrite (PostAlerts_complete _ _ Hset).
  set (attempts := Z.max (retryMaxAttempts client) 1).
  split.
  - destruct (postAlertsLoop_shape w client attempts (Z.to_nat attempts) 1)
      as (n & tail & Hev & Htail & Hle); [lia|lia|].
    exists n, tail. rewrite (Z.add_comm (Z.of_nat n) 1). done.
  - pose proof (postAlertsLoop_sleeps w client attempts (Z.to_nat attempts) 1
                  ltac:(lia)) as Hs. cbn zeta in Hs.
    intros Hn Hi Hm.
    destruct (postAlertsLoop_numbered w client attempts (Z.to_nat attempts) 1)
      as (_ & Hle & _).
    assert (Hthree : Z.to_nat attempts = 3%nat) by (unfold attempts; rewrite Hn; done).
    rewrite Hthree in *. split; [exact Hle|].
    rewrite Hs. unfold backoffAfter. rewrite Hi, Hm.
    destruct (attemptsOf (postAlertsLoop w client attempts 3 1).2) as [|[|[|[|n]]]];
      [by vm_compute..|lia].
Qed.

Lemma PostAlerts_sleeps_between_attempts_witness :
  complete New /\
  (exists (n : nat) tail,
     (PostAlerts (upstreamAnswering [500; 500; 200]) (Some New)).2 =
       retried New 1 n ++ EvAttempt (Z.of_nat n + 1) :: tail) /\
  (PostAlerts (upstreamAnswering [500; 500; 200]) (Some New)).2 =
    [EvAttempt 1; EvSleep 1 (200 * Millisecond);
     EvAttempt 2; EvSleep 2 (400 * Millisecond); EvAttempt 3] /\
  sumZ (sleepsOf (PostAlerts (upstreamAnswering [500; 500; 200]) (Some New)).2) <=
    600 * Millisecond.
Proof.
  assert (Hset : complete New) by done.
  destruct (PostAlerts_sleeps_between_attempts (upstreamAnswering [500; 500; 200])
              New Hset) as [(n & tail & Hev & _) Hsum].
  destruct (Hsum eq_refl eq_refl eq_refl) as [_ Hle].
  split; [exact Hset|]. split; [by exists n, tail|]. split; [by vm_compute|exact Hle].
Defined.

Lemma postAlertsLoop_exhausts w client attempts remaining a :
  Z.of_nat remaining = attempts - a + 1 -> (0 < remaining)%nat ->
  uncancelled w ->
  (forall k, a <= k <= attempts ->
     exists e, postAlertsOnce (exchangeAt w k) = Some e /\ shouldRetry (Some e) = true) ->
  let r := postAlertsLoop w client attempts remaining a in
  r.1 = postAlertsOnce (exchangeAt w attempts) /\ attemptsOf r.2 = remaining.
Proof.
  intros Hrem Hpos [Hctx Hsleep]. revert a Hrem Hpos.
  induction remaining as [|r IH]; intros a Hrem Hpos Hfail; [lia|]. cbn zeta.
  destruct (Hfail a ltac:(lia)) as (e & He & Hretry).
  destruct (Z.eq_dec a attempts) as [->|Hne].
  - rewrite (postAlertsLoop_give_up _ _ _ _ _ _ He (Hctx _)) by (by right).
    cbn. split; [done|]. f_equal. lia.
  - rewrite (postAlertsLoop_retry _ _ _ _ _ _ He (Hctx _) Hretry Hne (Hsleep _)).
    cbn [fst snd attemptsOf].
    destruct (IH (a + 1)) as [Hres Hcount]; [lia|lia| |].
    { intros k Hk. apply Hfail. lia. }
    split; [exact Hres|]. by rewrite Hcount.
Qed.

(** X4. On a client with its HTTP client and base URL set, under a context
    that is never done, when every attempt of the budget fails with an
    error that [shouldRetry] accepts, the call performs exactly
    max(retryMaxAttempts, 1) attempts and returns the error of the last
    one. *)
Theorem PostAlerts_exhausts_budget w client :
  complete client ->
  uncancelled w ->
  (forall k, 1 <= k <= Z.max (retryMaxAttempts client) 1 ->
     exists e, postAlertsOnce (exchangeAt w k) = Some e /\ shouldRetry (Some e) = true) ->
  (PostAlerts w (Some client)).1 =
    postAlertsOnce (exchangeAt w (Z.max (retryMaxAttempts client) 1)) /\
  Z.of_nat (attemptsOf (PostAlerts w (Some client)).2) =
    Z.max (retryMaxAttempts client) 1.
Proof.
  intros Hset Hctx Hfail. rewrite (PostAlerts_complete _ _ Hset).
  destruct (postAlertsLoop_exhausts w client (Z.max (retryMaxAttempts client) 1)
              (Z.to_nat (Z.max (retryMaxAttempts client) 1)) 1) as [Hres Hcount];
    [lia|lia|done|done|].
  split; [exact Hres|]. rewrite Hcount. lia.
Qed.

Lemma PostAlerts_exhausts_budget_witness :
  complete New /\
  uncancelled alwaysUnavailable /\
  (PostAlerts alwaysUnavailable (Some New)).1 =
    Some (Wrap [ErrUpstreamNon2xx; Status 503 ""]) /\
  attemptsOf (PostAlerts alwaysUnavailable (Some New)).2 = 3%nat.
Proof.
  assert (Hset : complete New) by done.
  assert (Hctx : uncancelled alwaysUnavailable) by done.
  destruct (PostAlerts_exhausts_budget alwaysUnavailable New Hset Hctx)
    as [Hres Hcount].
  { intros k _. eexists. split; [reflexivity|]. by vm_compute. }
  split; [exact Hset|]. split; [exact Hctx|]. split; [rewrite Hres; by vm_compute|].
  apply Nat2Z.inj. rewrite Hcount. by vm_compute.
Defined.

End DeliveryBudget.

Section ErrorChains.
Import GoStrings Alertmanager.

(** Induction over errors, with the operands of [Wrap]. *)
Lemma error_chain_ind (P : error -> Prop) :
  (forall e, unwrap e = [] -> P e) ->
  (forall inner, P inner -> P (NetOp inner)) ->
  (forall inner, P inner -> P (URLError inner)) ->
  (forall operands, Forall P operands -> P (Wrap operands)) ->
  forall e, P e.
Proof.
  intros Hleaf Hop Hurl Hwrap.
  fix IH 1. intros e.
  destruct e as [| | | | | | | | |inner| |inner|operands|];
    try (by apply Hleaf).
  - apply Hop, IH.
  - apply Hurl, IH.
  - apply Hwrap. induction operands as [|x l IHl]; constructor; [apply IH|exact IHl].
Qed.

Lemma findInChain_Wrap f operands :
  findInChain f (Wrap operands) =
    if f (Wrap operands) then Some (Wrap operands) else firstInChain f operands.
Proof. reflexivity. Qed.

Lemma findInChain_leaf f e :
  unwrap e = [] -> findInChain f e = if f e then Some e else None.
Proof.
  destruct e; try discriminate; intros H; try reflexivity.
  cbn [unwrap] in H. subst. reflexivity.
Qed.

(** What the walk finds is an error of the chain that [f] accepts. *)
Lemma findInChain_Some f e r :
  findInChain f e = Some r -> inChain r e /\ f r = true.
Proof.
  revert r. induction e as [e Hleaf|inner IH|inner IH|operands IH]
    using error_chain_ind; intros r.
  - rewrite findInChain_leaf by done. destruct (f e) eqn:Hf; [|done].
    intros [= <-]. split; [constructor|done].
  - cbn [findInChain]. destruct (f (NetOp inner)) eqn:Hf.
    + intros [= <-]. split; [constructor|done].
    + intros [Hin ?]%IH. split; [by constructor|done].
  - cbn [findInChain]. destruct (f (URLError inner)) eqn:Hf.
    + intros [= <-]. split; [constructor|done].
    + intros [Hin ?]%IH. split; [by constructor|done].
  - rewrite findInChain_Wrap. destruct (f (Wrap operands)) eqn:Hf.
    + intros [= <-]. split; [constructor|done].
    + clear Hf. intros Hr.
      assert (exists x, x ∈ operands /\ inChain r x /\ f r = true)
        as (x & Hx & Hin & Hfr).
      { induction IH as [|x l Hx _ IHl]; cbn [firstInChain] in Hr; [done|].
        destruct (findInChain f x) as [r'|] eqn:Hfx.
        - injection Hr as ->. destruct (Hx r eq_refl) as [Hin ?].
          exists x. split; [apply list_elem_of_here|done].
        - destruct (IHl Hr) as (y & Hy & ?). exists y.
          split; [by apply list_elem_of_further|done]. }
      split; [|done]. by eapply inChain_wrap.
Qed.

(** An error of the chain that [f] accepts is found, or one before it. *)
Lemma findInChain_found f e x :
  inChain x e -> f x = true -> found (findInChain f e) = true.
Proof.
  intros Hin Hfx. induction Hin as [|inner Hin IH|inner Hin IH|operand operands Hmem Hin IH].
  - destruct x; cbn [findInChain]; rewrite ?findInChain_Wrap, Hfx; done.
  - cbn [findInChain]. by destruct (f (NetOp inner)).
  - cbn [findInChain]. by destruct (f (URLError inner)).
  - rewrite findInChain_Wrap. destruct (f (Wrap operands)); [done|].
    induction Hmem as [y l|y z l Hmem IHl]; cbn [firstInChain].
    + destruct (findInChain f y); [done|]. cbn in IH. done.
    + destruct (findInChain f z); [done|]. by apply IHl.
Qed.

Lemma findInChain_None f e :
  (forall x, inChain x e -> f x = false) -> findInChain f e = None.
Proof.
  intros Hall. destruct (findInChain f e) as [r|] eqn:Hr; [|done].
  apply findInChain_Some in Hr as [Hin Hfr]. rewrite (Hall r Hin) in Hfr. done.
Qed.

End ErrorChains.

Section ClassificationChains.
Import GoStrings Alertmanager.

Lemma errorsIs_inChain e target x :
  inChain x e -> sameError target x = true -> errorsIs e target = true.
Proof. intros Hin Hx. unfold errorsIs. by eapply findInChain_found. Qed.

Lemma isPermanentTLSError_inChain e x :
  inChain x e -> isTLSError x = true -> isPermanentTLSError e = true.
Proof.
  intros Hin Hx. unfold isPermanentTLSError, errorsAs.
  unfold isTLSError in Hx.
  pose proof (findInChain_found isUnknownAuthorityError e x Hin) as H1.
  pose proof (findInChain_found isHostnameError e x Hin) as H2.
  pose proof (findInChain_found isCertificateInvalidError e x Hin) as H3.
  pose proof (findInChain_found isSystemRootsError e x Hin) as H4.
  pose proof (findInChain_found isRecordHeaderError e x Hin) as H5.
  destruct (isUnknownAuthorityError x); [by rewrite H1|].
  destruct (isHostnameError x); [rewrite H2 by done; by destruct (found _)|].
  destruct (isCertificateInvalidError x);
    [rewrite H3 by done; by repeat destruct (found _)|].
  destruct (isSystemRootsError x);
    [rewrite H4 by done; by repeat destruct (found _)|].
  destruct (isRecordHeaderError x); [|done].
  rewrite H5 by done. by repeat destruct (found _).
Qed.

Lemma isPermanentTLSError_false e :
  (forall x, inChain x e -> isTLSError x = false) -> isPermanentTLSError e = false.
Proof.
  intros Hall. unfold isPermanentTLSError, errorsAs.
  rewrite !findInChain_None; [done|..]; intros x Hx; specialize (Hall x Hx);
    unfold isTLSError in Hall; by repeat (apply orb_false_iff in Hall as [Hall ?]).
Qed.

(** X6. An error whose chain holds a cancellation, a deadline expiry or
    one of the five permanent TLS errors, at any depth, is never retried,
    whatever else the chain holds (a 503 status, a connection failure). *)
Theorem shouldRetry_permanent_first e x :
  inChain x e ->
  sameError Canceled x || sameError DeadlineExceeded x || isTLSError x = true ->
  shouldRetry (Some e) = false.
Proof.
  intros Hin Hx. unfold shouldRetry.
  destruct (sameError Canceled x) eqn:Hc.
  { by rewrite (errorsIs_inChain e Canceled x Hin Hc). }
  destruct (sameError DeadlineExceeded x) eqn:Hd.
  { rewrite (errorsIs_inChain e DeadlineExceeded x Hin Hd). by rewrite orb_true_r. }
  cbn [orb] in Hx. rewrite (isPermanentTLSError_inChain e x Hin Hx).
  by destruct (_ || _).
Qed.

Lemma shouldRetry_permanent_first_witness :
  inChain X509UnknownAuthority
    (Wrap [ErrDoRequest; URLError (NetOp X509UnknownAuthority); Status 503 ""]) /\
  shouldRetry
    (Some (Wrap [ErrDoRequest; URLError (NetOp X509UnknownAuthority); Status 503 ""])) =
    false /\
  shouldRetry (Some (Wrap [Wrap [ErrUpstreamNon2xx; Status 503 ""]; Canceled])) = false.
Proof.
  assert (H1 : inChain X509UnknownAuthority
            (Wrap [ErrDoRequest; URLError (NetOp X509UnknownAuthority); Status 503 ""])).
  { eapply inChain_wrap; [apply list_elem_of_further, list_elem_of_here|].
    repeat constructor. }
  assert (H2 : inChain Canceled (Wrap [Wrap [ErrUpstreamNon2xx; Status 503 ""]; Canceled])).
  { eapply inChain_wrap; [apply list_elem_of_further, list_elem_of_here|constructor]. }
  split; [exact H1|]. split.
  - exact (shouldRetry_permanent_first _ _ H1 eq_refl).
  - exact (shouldRetry_permanent_first _ _ H2 eq_refl).
Defined.

(** Without a status error and without the do-request sentinel in its chain
    an error is not retried. *)
Lemma shouldRetry_closed e :
  (forall x, inChain x e -> isStatusError x = false) ->
  (forall x, inChain x e -> sameError ErrDoRequest x = false) ->
  shouldRetry (Some e) = false.
Proof.
  intros Hstatus Hdo. unfold shouldRetry.
  destruct (_ || _); [done|]. destruct (isPermanentTLSError e); [done|].
  unfold errorsAs at 1. rewrite (findInChain_None isStatusError) by done.
  unfold errorsIs. by rewrite (findInChain_None (sameError ErrDoRequest)).
Qed.

(** X7. An error under the do-request sentinel whose chain holds a
    [*net.OpError] is retried, when the chain holds no cancellation, no
    deadline expiry, no permanent TLS error and no status error. *)
Theorem shouldRetry_connection_failure e inner :
  (forall x, inChain x e ->
     sameError Canceled x || sameError DeadlineExceeded x || isTLSError x
     || isStatusError x = false) ->
  inChain ErrDoRequest e -> inChain (NetOp inner) e ->
  shouldRetry (Some e) = true.
Proof.
  intros Hnone Hdo Hop. unfold shouldRetry.
  assert (Hc : errorsIs e Canceled = false).
  { unfold errorsIs. rewrite findInChain_None; [done|].
    intros x Hx. specialize (Hnone x Hx).
    by repeat (apply orb_false_iff in Hnone as [Hnone ?]). }
  assert (Hd : errorsIs e DeadlineExceeded = false).
  { unfold errorsIs. rewrite findInChain_None; [done|].
    intros x Hx. specialize (Hnone x Hx).
    by repeat (apply orb_false_iff in Hnone as [Hnone ?]). }
  assert (Ht : isPermanentTLSError e = false).
  { apply isPermanentTLSError_false. intros x Hx. specialize (Hnone x Hx).
    by repeat (apply orb_false_iff in Hnone as [Hnone ?]). }
  assert (Hs : errorsAs isStatusError e = None).
  { apply findInChain_None. intros x Hx. specialize (Hnone x Hx).
    by repeat (apply orb_false_iff in Hnone as [Hnone ?]). }
  rewrite Hc, Hd, Ht, Hs. cbn [orb].
  rewrite (errorsIs_inChain e ErrDoRequest ErrDoRequest Hdo eq_refl).
  unfold errorsAs at 2.
  rewrite (findInChain_found isOpError e (NetOp inner) Hop eq_refl).
  by destruct (match errorsAs isNetError e with Some _ => _ | None => _ end).
Qed.

Lemma shouldRetry_connection_failure_witness :
  shouldRetry
    (Some (Wrap [ErrDoRequest; URLError (NetOp (Other "connection refused"))])) = true /\
  postAlertsOnce (DoFailed (URLError (NetOp (Other "connection refused")))) =
    Some (Wrap [ErrDoRequest; URLError (NetOp (Other "connection refused"))]).
Proof.
  split; [|reflexivity].
  apply (shouldRetry_connection_failure _ (Other "connection refused")).
  - intros x Hx.
    inversion Hx as [| | |operand operands Hmem Hin]; subst; [done|].
    set_unfold in Hmem. destruct Hmem as [->|[->|[]]].
    + by inversion Hin.
    + inversion Hin as [| |i Hin'|]; subst; [done|].
      inversion Hin' as [|i Hin''| |]; subst; [done|].
      by inversion Hin''.
  - eapply inChain_wrap; [apply list_elem_of_here|constructor].
  - eapply inChain_wrap; [apply list_elem_of_further, list_elem_of_here|].
    repeat constructor.
Defined.

End ClassificationChains.

Section DeliverySteps.
Import GoStrings Alertmanager.

Implicit Types (w : World) (client : Client).

Lemma inChain_pair s e x :
  inChain x (Wrap [Sentinel s; e]) ->
  x = Wrap [Sentinel s; e] \/ x = Sentinel s \/ inChain x e.
Proof.
  inversion 1 as [| | |operand operands Hmem Hin]; subst; [by left|].
  set_unfold in Hmem. destruct Hmem as [->|[->|[]]].
  - inversion Hin; subst. by right; left.
  - by right; right.
Qed.

(** X5. On a client with its HTTP client and base URL set, a failure to
    encode the alerts, to create the request, or to read the body of a
    non-2xx answer is not retried and ends the call after one attempt,
    when the underlying error holds no status error and no do-request
    sentinel and the context is not done. *)
Theorem PostAlerts_only_do_and_status_retried w client e :
  complete client ->
  (forall x, inChain x e -> isStatusError x = false) ->
  (forall x, inChain x e -> sameError ErrDoRequest x = false) ->
  ctxErrAfter w 1 = None ->
  exchangeAt w 1 = EncodeFailed e \/ exchangeAt w 1 = CreateFailed e \/
  (exists code status, non2xx code = true /\
     exchangeAt w 1 = Response code status (ReadFailed e)) ->
  shouldRetry (postAlertsOnce (exchangeAt w 1)) = false /\
  PostAlerts w (Some client) = (postAlertsOnce (exchangeAt w 1), [EvAttempt 1]) /\
  exists s, postAlertsOnce (exchangeAt w 1) = Some (Wrap [Sentinel s; e]).
Proof.
  intros Hset Hstatus Hdo Hctx Hx.
  assert (Hshape : exists s, sameError ErrDoRequest (Sentinel s) = false /\
                     postAlertsOnce (exchangeAt w 1) = Some (Wrap [Sentinel s; e])).
  { destruct Hx as [->|[->|(code & status & Hcode & ->)]].
    - exists "encode request failed". split; reflexivity.
    - exists "create request failed". split; reflexivity.
    - exists "read response body failed". split; [reflexivity|].
      cbn [postAlertsOnce]. by rewrite Hcode. }
  destruct Hshape as (s & Hs & Hpost).
  assert (Hretry : shouldRetry (Some (Wrap [Sentinel s; e])) = false).
  { apply shouldRetry_closed; intros x [->|[->|Hin]]%inChain_pair; auto. }
  rewrite Hpost. split; [exact Hretry|]. split; [|by exists s].
  rewrite (PostAlerts_complete _ _ Hset).
  destruct (Z.to_nat (Z.max (retryMaxAttempts client) 1)) as [|r] eqn:Hr; [lia|].
  by apply postAlertsLoop_give_up; [| |left].
Qed.

Lemma PostAlerts_only_do_and_status_retried_witness :
  complete New /\
  PostAlerts unreadableBody (Some New) =
    (Some (Wrap [ErrReadResponseBody; NetDNS true]), [EvAttempt 1]) /\
  shouldRetry (Some (Wrap [ErrDoRequest; NetDNS true])) = true.
Proof.
  assert (Hset : complete New) by done.
  split; [exact Hset|].
  destruct (PostAlerts_only_do_and_status_retried unreadableBody New (NetDNS true))
    as (_ & Hpost & _).
  - exact Hset.
  - intros x Hx. by inversion Hx.
  - intros x Hx. by inversion Hx.
  - reflexivity.
  - right; right. exists 503, "". split; reflexivity.
  - split; [exact Hpost|reflexivity].
Defined.

(** X10. [Ready] returns nil for a response with status 200 and for
    nothing else: a 2xx status other than 200, which [postAlertsOnce]
    accepts, is reported as not ready. *)
Theorem Ready_only_200 x :
  (Ready x = None <-> x = ProbeResponse 200) /\
  (forall code status body,
     200 < code < 300 ->
     postAlertsOnce (Response code status body) = None /\
     Ready (ProbeResponse code) = Some (Wrap [ErrNotReady])).
Proof.
  split.
  - split.
    + destruct x as [e|e|code]; try done. cbn [Ready]. unfold StatusOK.
      destruct (Z.eqb_spec code 200) as [->|]; done.
    + by intros ->.
  - intros code status body Hcode. split.
    + apply postAlertsOnce_2xx. lia.
    + cbn [Ready]. unfold StatusOK. destruct (Z.eqb_spec code 200); [lia|done].
Qed.

(** X11. With the credentials trimmed as [New] stores them, [applyAuth]
    sends the bearer token when it is not blank; otherwise basic
    credentials when the username or the password is not blank; otherwise
    it leaves the request as it is.  A blank bearer token does not hide the
    basic credentials. *)
Theorem applyAuth_normalized auth current :
  let bearer := TrimSpace (BearerToken auth) in
  let username := TrimSpace (BasicUsername auth) in
  let password := TrimSpace (BasicPassword auth) in
  (bearer <> "" ->
     applyAuth (normalizeAuth auth) current = BearerAuthorization bearer) /\
  (bearer = "" -> username <> "" \/ password <> "" ->
     applyAuth (normalizeAuth auth) current = BasicAuthorization username password) /\
  (bearer = "" -> username = "" -> password = "" ->
     applyAuth (normalizeAuth auth) current = current).
Proof.
  cbn zeta. unfold applyAuth, normalizeAuth. cbn [BearerToken BasicUsername BasicPassword].
  destruct (String.eqb_spec (TrimSpace (BearerToken auth)) "") as [Hb|Hb];
    destruct (String.eqb_spec (TrimSpace (BasicUsername auth)) "") as [Hu|Hu];
    destruct (String.eqb_spec (TrimSpace (BasicPassword auth)) "") as [Hp|Hp];
    cbn [negb orb]; repeat split; try done; intros; try done; tauto.
Qed.

End DeliverySteps.

Section BackoffBounds.
Import Alertmanager.

Lemma backoffLoop_capped remaining backoff maxBackoff :
  backoff <= maxBackoff \/ (0 < remaining)%nat ->
  backoffLoop remaining backoff maxBackoff <= maxBackoff.
Proof.
  revert backoff. induction remaining as [|r IH]; intros backoff Hb.
  - cbn. destruct (Z.gtb_spec backoff maxBackoff); lia.
  - cbn [backoffLoop]. destruct (Z.geb_spec (wrap64 (backoff * 2)) maxBackoff); [lia|].
    apply IH. lia.
Qed.

(** A doubling that leaves [int64] comes back negative. *)
Lemma wrap64_double initial :
  2 ^ 62 <= initial <= maxInt64 -> wrap64 (initial * 2) = 2 * initial - 2 ^ 64.
Proof.
  unfold maxInt64, wrap64. intros Hi.
  replace (initial * 2 + 2 ^ 63) with (2 * initial - 2 ^ 63 + 1 * 2 ^ 64) by lia.
  rewrite Z.mod_add by lia. rewrite Z.mod_small by lia. lia.
Qed.

(** X8. From the second attempt on, [computeBackoff] never exceeds the
    maximum, for all values of its arguments.  It has no lower bound: a
    doubling that overflows [int64] gives a negative backoff, which is
    below the maximum and so is returned as it is.  For an initial value
    from 2^62 on and a maximum that is not negative, the backoff of
    attempt 2 is 2 * initial - 2^64. *)
Theorem computeBackoff_capped attempt initial maxBackoff :
  2 <= attempt ->
  computeBackoff attempt initial maxBackoff <= maxBackoff /\
  (2 ^ 62 <= initial <= maxInt64 -> 0 <= maxBackoff ->
     computeBackoff 2 initial maxBackoff = 2 * initial - 2 ^ 64 /\
     computeBackoff 2 initial maxBackoff < 0).
Proof.
  intros Hn. split.
  - unfold computeBackoff. destruct (Z.leb_spec attempt 1); [lia|].
    apply backoffLoop_capped. lia.
  - intros Hi Hm.
    assert (E : computeBackoff 2 initial maxBackoff = 2 * initial - 2 ^ 64).
    { unfold computeBackoff. change (2 <=? 1) with false. cbn match.
      change (Z.to_nat (2 - 1)) with 1%nat. cbn [backoffLoop].
      rewrite (wrap64_double _ Hi). unfold maxInt64 in Hi.
      destruct (Z.geb_spec (2 * initial - 2 ^ 64) maxBackoff); [lia|].
      destruct (Z.gtb_spec (2 * initial - 2 ^ 64) maxBackoff); [lia|]. done. }
    rewrite E. unfold maxInt64 in Hi. split; [done|lia].
Qed.

Lemma computeBackoff_capped_witness :
  computeBackoff 2 (2 ^ 62) 5 = - 2 ^ 63 /\ computeBackoff 3 (2 ^ 62) 5 <= 5 /\
  computeBackoff 2 7 5 = 5 /\ computeBackoff 1 7 5 = 7.
Proof.
  destruct (computeBackoff_capped 2 (2 ^ 62) 5 ltac:(lia)) as [_ H].
  destruct (H ltac:(by vm_compute) ltac:(lia)) as [E _].
  split; [rewrite E; reflexivity|].
  split; [apply (computeBackoff_capped 3 (2 ^ 62) 5); lia|]. split; reflexivity.
Defined.

(** X9. With an initial value within the maximum (and doubling within
    [int64]) the backoff is at least the initial value, at most the
    maximum, and never decreases from one attempt to a later one. *)
Theorem computeBackoff_monotone attempt attempt' initial maxBackoff :
  0 < initial <= maxBackoff -> 2 * maxBackoff <= maxInt64 ->
  1 <= attempt <= attempt' ->
  initial <= computeBackoff attempt initial maxBackoff /\
  computeBackoff attempt initial maxBackoff <=
    computeBackoff attempt' initial maxBackoff /\
  computeBackoff attempt' initial maxBackoff <= maxBackoff.
Proof.
  intros Hi Hm Hn.
  assert (Hform : forall n, 1 <= n ->
            computeBackoff n initial maxBackoff = Z.min (initial * 2 ^ (n - 1)) maxBackoff).
  { intros n Hn1. destruct (Z.eq_dec n 1) as [->|Hne].
    - change (computeBackoff 1 initial maxBackoff) with initial.
      change (2 ^ (1 - 1)) with 1. lia.
    - apply computeBackoff_later; lia. }
  rewrite !Hform by lia.
  assert (1 <= 2 ^ (attempt - 1)) by (apply (Z.pow_le_mono_r 2 0); lia).
  assert (2 ^ (attempt - 1) <= 2 ^ (attempt' - 1)) by (apply Z.pow_le_mono_r; lia).
  split; [|split]; [nia|nia|lia].
Qed.

Lemma computeBackoff_monotone_witness :
  computeBackoff 2 defaultRetryInitial defaultRetryMaxBackoff <=
    computeBackoff 3 defaultRetryInitial defaultRetryMaxBackoff /\
  computeBackoff 2 7 5 < computeBackoff 1 7 5.
Proof.
  destruct (computeBackoff_monotone 2 3 defaultRetryInitial defaultRetryMaxBackoff)
    as (_ & H & _); [by vm_compute|by vm_compute|lia|].
  split; [exact H|reflexivity].
Defined.

End BackoffBounds.

(** ** Application ids and deadlines *)

Section Identity.
Import GoStrings Main.

Lemma appIDStep_range hash b : 0 <= appIDStep hash b < 2 ^ 32.
Proof. unfold appIDStep. apply Z.mod_pos_bound. done. Qed.

Lemma bytes_app s1 s2 : bytes (s1 +:+ s2) = bytes s1 ++ bytes s2.
Proof.
  unfold bytes. induction s1 as [|a s1 IH]; [done|].
  change (String a s1 +:+ s2) with (String a (s1 +:+ s2)).
  cbn [String.list_ascii_of_string app]. by rewrite IH.
Qed.

(** X12. The application id is the 32-bit FNV-1a hash of the name's bytes:
    it always fits 32 bits, it starts from the offset basis for the empty
    name, and one more byte xors the byte in and multiplies by the prime,
    modulo 2^32.  The ids of a and foobar are the published FNV-1a values
    0xe40c292c and 0xbf9cf968. *)
Theorem appIDFromName_fnv1a appName b :
  0 <= appIDFromName appName < 2 ^ 32 /\
  appIDFromName (appName +:+ String b "") =
    (Z.lxor (appIDFromName appName) (Z.of_nat (nat_of_ascii b)) * 16777619) mod 2 ^ 32 /\
  appIDFromName "" = 2166136261 /\
  appIDFromName "a" = 3826002220 /\
  appIDFromName "foobar" = 3214735720.
Proof.
  split; [|split; [|by vm_compute]].
  - unfold appIDFromName.
    generalize (bytes appName). intros l.
    induction l as [|x l IH] using rev_ind; [by vm_compute|].
    rewrite fold_left_app. apply appIDStep_range.
  - unfold appIDFromName. rewrite bytes_app, fold_left_app. reflexivity.
Qed.



End Identity.

(** ** The forwarder's summary, annotations and labels *)

Section ForwarderMore.
Import GoStrings Main.

Lemma length_bytes s : length (bytes s) = String.length s.
Proof. unfold bytes. induction s as [|a s IH]; [done|]. cbn. by rewrite IH. Qed.

Lemma bytes_ofBytes l : bytes (ofBytes l) = l.
Proof. apply String.list_ascii_of_string_of_list_ascii. Qed.

Lemma ofBytes_bytes s : ofBytes (bytes s) = s.
Proof. apply String.string_of_list_ascii_of_string. Qed.

Lemma len_app s1 s2 : len (s1 +:+ s2) = len s1 + len s2.
Proof.
  unfold len. rewrite <- !length_bytes, bytes_app, length_app. lia.
Qed.

Lemma len_sliceTo s n : len (sliceTo s n) = Z.of_nat (Nat.min n (String.length s)).
Proof.
  unfold len, sliceTo. rewrite <- length_bytes, bytes_ofBytes, length_take, length_bytes.
  done.
Qed.

Lemma len_nonneg s : 0 <= len s.
Proof. unfold len. lia. Qed.

Lemma len_zero s : len s = 0 <-> s = "".
Proof. unfold len. destruct s; cbn; split; (done || lia). Qed.

Lemma pickSummary_title appName title message :
  TrimSpace title <> "" -> pickSummary appName title message = TrimSpace title.
Proof.
  intros Ht. unfold pickSummary. by destruct (String.eqb_spec (TrimSpace title) "").
Qed.

Lemma pickSummary_message_len appName title message :
  TrimSpace title = "" -> TrimSpace message <> "" ->
  0 < len (pickSummary appName title message) <= 127.
Proof.
  intros Ht Hm. unfold pickSummary. rewrite Ht. cbn [String.eqb negb].
  destruct (String.eqb_spec (TrimSpace message) "") as [|_]; [done|].
  assert (Hpos : 0 < len (TrimSpace message)).
  { pose proof (len_nonneg (TrimSpace message)).
    destruct (Z.eq_dec (len (TrimSpace message)) 0) as [Hz|]; [|lia].
    by apply len_zero in Hz. }
  destruct (Z.leb_spec (len (TrimSpace message)) 120) as [Hl|Hl]; [lia|].
  rewrite len_app, len_sliceTo. unfold len in Hl.
  change (len truncationMarker) with 7. lia.
Qed.

(** X14. When the title is blank and the message is not, the summary has
    between 1 and 127 bytes (120 of the message and the 7 of the marker at
    most).  The summary is empty only when the title and the message are
    blank and the app name is empty. *)
Theorem pickSummary_bounds appName title message :
  (TrimSpace title = "" -> TrimSpace message <> "" ->
     0 < len (pickSummary appName title message) <= 127) /\
  (pickSummary appName title message = "" ->
     appName = "" /\ TrimSpace title = "" /\ TrimSpace message = "").
Proof.
  split; [apply pickSummary_message_len|]. intros Hs.
  destruct (String.eqb_spec (TrimSpace title) "") as [Ht|Ht].
  - destruct (String.eqb_spec (TrimSpace message) "") as [Hm|Hm].
    + split; [|done]. unfold pickSummary in Hs. by rewrite Ht, Hm in Hs.
    + pose proof (pickSummary_message_len appName title message Ht Hm) as Hl.
      rewrite Hs in Hl. change (len "") with 0 in Hl. lia.
  - rewrite pickSummary_title in Hs by done. done.
Qed.

End ForwarderMore.

Section ForwarderAnnotations.
Import GoStrings Main.

Lemma mergeStringMap_lookup dst src key :
  mergeStringMap dst src !! key =
    match src !! key with Some v => Some v | None => dst !! key end.
Proof.
  unfold mergeStringMap. destruct (Nat.eqb_spec (size src) 0) as [Hz|_].
  - apply map_size_empty_iff in Hz. by rewrite Hz, lookup_empty.
  - rewrite lookup_union. by destruct (src !! key), (dst !! key).
Qed.

(** X15. The annotations of the alert: summary is the picked summary,
    description is the message as received, each of the four well-known
    annotation keys is bound exactly when the extras hold a string at its
    path, and there is no other key.  The alert starts at the time of the
    call and ends one TTL later. *)
Theorem newForwarder_annotations defaults app msg messageIdentifier now :
  let alert := newForwarder defaults app msg messageIdentifier now in
  let annotations := Alertmanager.Annotations alert in
  annotations !! "summary" =
    Some (pickSummary (Server.Name app) (Gotify.Title msg) (Gotify.Message msg)) /\
  annotations !! "description" = Some (Gotify.Message msg) /\
  (forall key path, (key, path) ∈ Gotify.wellKnownExtras ->
     annotations !! key = Gotify.extrasStringAtPath (Gotify.Extras msg) path) /\
  (forall key, is_Some (annotations !! key) ->
     key = "summary" \/ key = "description" \/
     exists path, (key, path) ∈ Gotify.wellKnownExtras) /\
  Alertmanager.StartsAt alert = now /\
  Alertmanager.EndsAt alert = now + TTL defaults.
Proof.
  cbn zeta. unfold newForwarder. cbn [Alertmanager.Annotations Alertmanager.StartsAt
                                       Alertmanager.EndsAt].
  set (extras := Gotify.entries (Gotify.ExtrasAnnotations (Gotify.Extras msg))).
  assert (Hkeys : forall key v, extras !! key = Some v ->
            exists path, (key, path) ∈ Gotify.wellKnownExtras)
    by (intros key v; apply ExtrasAnnotations_keys).
  assert (Hnot : forall key, key = "summary" \/ key = "description" ->
            extras !! key = None).
  { intros key Hkey. destruct (extras !! key) as [v|] eqn:Hv; [|done].
    destruct (Hkeys key v Hv) as [path Hin].
    unfold Gotify.wellKnownExtras in Hin. set_unfold in Hin.
    destruct Hkey as [-> | ->];
      destruct Hin as [[= ? ?]|[[= ? ?]|[[= ? ?]|[[= ? ?]|[]]]]]; done. }
  split; [|split; [|split; [|split]]]; try done.
  - rewrite mergeStringMap_lookup, Hnot by (by left).
    rewrite lookup_insert_ne by done. by rewrite lookup_insert_eq.
  - rewrite mergeStringMap_lookup, Hnot by (by right). by rewrite lookup_insert_eq.
  - intros key path Hin. rewrite mergeStringMap_lookup.
    unfold extras. rewrite (ExtrasAnnotations_lookup _ key path Hin).
    destruct (Gotify.extrasStringAtPath (Gotify.Extras msg) path) as [v|]; [done|].
    unfold Gotify.wellKnownExtras in Hin. set_unfold in Hin.
    destruct Hin as [[= -> _]|[[= -> _]|[[= -> _]|[[= -> _]|[]]]]];
      by rewrite !lookup_insert_ne, lookup_empty by done.
  - intros key [v Hv]. rewrite mergeStringMap_lookup in Hv.
    destruct (extras !! key) as [v'|] eqn:Hx.
    + right; right. by eapply Hkeys.
    + apply lookup_insert_Some in Hv as [[<- _]|[_ Hv]]; [by right; left|].
      apply lookup_insert_Some in Hv as [[<- _]|[_ Hv]]; [by left|].
      by rewrite lookup_empty in Hv.
Qed.

(** X25. The alert carries a label exactly when the key is one of the five
    computed ones or is bound in the per-app labels or in the default
    labels.  For every other key the per-app value wins over the default
    one, and the default one is used when the app has none. *)
Theorem newForwarder_label_sources defaults app msg messageIdentifier now key :
  let labels :=
    Alertmanager.Labels (newForwarder defaults app msg messageIdentifier now) in
  let computed := ["alertname"; "app"; "severity"; "priority"; "gotilert_id"] in
  (is_Some (labels !! key) <->
     key ∈ computed \/ is_Some (Server.Labels app !! key) \/
     is_Some (DefaultLabels defaults !! key)) /\
  (key ∉ computed ->
     forall v, Server.Labels app !! key = Some v -> labels !! key = Some v) /\
  (key ∉ computed -> Server.Labels app !! key = None ->
     labels !! key = DefaultLabels defaults !! key).
Proof.
  cbn zeta.
  destruct (decide (key ∈ ["alertname"; "app"; "severity"; "priority"; "gotilert_id"]))
    as [Hin|Hout].
  - split; [|by split]. split; [by left|]. intros _.
    unfold newForwarder. cbn [Alertmanager.Labels].
    set_unfold in Hin.
    destruct Hin as [->|[->|[->|[->|[->|[]]]]]];
      repeat first [ rewrite lookup_insert_eq; by eexists
                   | rewrite lookup_insert_ne by done ].
  - rewrite (newForwarder_other_labels _ _ _ _ _ _ Hout).
    split; [|split].
    + destruct (Server.Labels app !! key) as [v|].
      * split; [by right; left|by eexists].
      * split; [by right; right|]. by intros [?|[[? ?]|?]].
    + by intros _ v ->.
    + by intros _ ->.
Qed.

End ForwarderAnnotations.

Section SeverityMore.
Import GoStrings Main.

(** For a map that is not empty the resolution returns one of its values. *)
Lemma severityForPriority_value m p :
  m <> ∅ -> exists k, m !! k = Some (severityForPriority m p).
Proof.
  intros Hne. unfold severityForPriority, severityForPriorityIn.
  destruct (m !! p) as [v|] eqn:Hp; [by exists p|].
  destruct ((map_to_list m).*1) as [|k0 keys] eqn:Hkeys.
  { exfalso. apply Hne, rangeOrder_nil. unfold rangeOrder. by rewrite Hkeys. }
  pose proof (severity_fold_bestOf p (k0 :: keys) ltac:(done)) as (_ & Hin & _).
  set (st := fold_left (severityStep p) (k0 :: keys) (Best 0 false)) in *.
  assert (Hself : rangeOrder m (k0 :: keys)) by (unfold rangeOrder; by rewrite Hkeys).
  apply (rangeOrder_elem m _ _ Hself) in Hin as [v Hv].
  exists (bestKey st). by rewrite Hv.
Qed.

(** X16. The severity label is always a value of the map in force: of the
    per-app map when that is not empty, else of the default map when that
    is not empty; with both empty it is info. *)
Theorem newForwarder_severity_map defaults app msg messageIdentifier now :
  let labels :=
    Alertmanager.Labels (newForwarder defaults app msg messageIdentifier now) in
  (Server.SeverityFromPriority app <> ∅ ->
     exists k, Server.SeverityFromPriority app !! k = labels !! "severity") /\
  (Server.SeverityFromPriority app = ∅ -> DefaultSeverityFromPriority defaults <> ∅ ->
     exists k, DefaultSeverityFromPriority defaults !! k = labels !! "severity") /\
  (Server.SeverityFromPriority app = ∅ -> DefaultSeverityFromPriority defaults = ∅ ->
     labels !! "severity" = Some "info").
Proof.
  cbn zeta. unfold newForwarder. cbn [Alertmanager.Labels].
  rewrite !lookup_insert_ne by done. rewrite lookup_insert_eq.
  unfold severityMapFor.
  destruct (Nat.ltb_spec 0 (size (Server.SeverityFromPriority app))) as [Hs|Hs].
  - assert (Hne : Server.SeverityFromPriority app <> ∅).
    { intros He. rewrite He, map_size_empty in Hs. lia. }
    split; [|split]; try done.
    intros _. destruct (severityForPriority_value _ (Gotify.Priority msg) Hne) as [k Hk].
    by exists k.
  - assert (He : Server.SeverityFromPriority app = ∅).
    { apply map_size_empty_iff. lia. }
    split; [done|]. split.
    + intros _ Hne.
      destruct (severityForPriority_value _ (Gotify.Priority msg) Hne) as [k Hk].
      by exists k.
    + intros _ ->. done.
Qed.

End SeverityMore.

(** ** Trimming *)

Section Trimming.
Import GoStrings.

Implicit Types (p l r : list ascii).

Lemma stripPrefix_Some p l r : stripPrefix p l = Some r -> l = p ++ r.
Proof.
  revert l. induction p as [|a p IH]; intros [|b l]; cbn; try done.
  - by intros [= ->].
  - by intros [= ->].
  - destruct (Ascii.eqb_spec a b) as [->|]; [|done].
    intros H%IH. by rewrite H.
Qed.

Lemma stripPrefix_app p r : stripPrefix p (p ++ r) = Some r.
Proof.
  induction p as [|a p IH]; [by destruct r|].
  cbn. by rewrite Ascii.eqb_refl.
Qed.

Lemma firstStrip_Some ps l r :
  firstStrip ps l = Some r -> exists p, p ∈ ps /\ l = p ++ r.
Proof.
  induction ps as [|p ps IH]; cbn; [done|].
  destruct (stripPrefix p l) as [r'|] eqn:Hp.
  - intros [= ->]. exists p. split; [apply list_elem_of_here|by apply stripPrefix_Some].
  - intros (q & Hq & ->)%IH. exists q. split; [by apply list_elem_of_further|done].
Qed.

Lemma firstStrip_None_prefix ps l x :
  firstStrip ps (l ++ x) = None -> firstStrip ps l = None.
Proof.
  induction ps as [|p ps IH]; cbn; [done|].
  destruct (stripPrefix p (l ++ x)) eqn:Hp; [done|]. intros H.
  destruct (stripPrefix p l) as [r|] eqn:Hl; [|by apply IH].
  apply stripPrefix_Some in Hl as ->.
  by rewrite <- app_assoc, stripPrefix_app in Hp.
Qed.

Lemma dropLeadingSpace_shortens : shortens dropLeadingSpace.
Proof.
  intros l r (p & Hp & ->)%firstStrip_Some. rewrite length_app.
  assert (0 < length p)%nat; [|lia].
  unfold spaceEncodings in Hp.
  repeat (apply elem_of_cons in Hp as [->|Hp]; [cbn; lia|]).
  by apply elem_of_nil in Hp.
Qed.

Lemma dropTrailingSpace_shortens : shortens dropTrailingSpace.
Proof.
  intros l r (p & Hp & ->)%firstStrip_Some. rewrite length_app.
  assert (0 < length p)%nat; [|lia].
  unfold spaceEncodings in Hp.
  repeat (apply elem_of_cons in Hp as [->|Hp]; [cbn; lia|]).
  by apply elem_of_nil in Hp.
Qed.

Lemma trimWith_done step fuel l :
  shortens step -> (length l <= fuel)%nat ->
  step (trimWith step fuel l) = None \/ trimWith step fuel l = [].
Proof.
  intros Hstep. revert l. induction fuel as [|fuel IH]; intros l Hlen.
  - right. destruct l; [done|cbn in Hlen; lia].
  - cbn. destruct (step l) as [l'|] eqn:Hl; [|by left].
    apply IH. apply Hstep in Hl. lia.
Qed.

Lemma trimWith_suffix step fuel l :
  (forall l r, step l = Some r -> exists p, l = p ++ r) ->
  exists p, l = p ++ trimWith step fuel l.
Proof.
  intros Hstep. revert l. induction fuel as [|fuel IH]; intros l; [by exists []|].
  cbn. destruct (step l) as [l'|] eqn:Hl; [|by exists []].
  destruct (Hstep _ _ Hl) as [p ->]. destruct (IH l') as [q Hq].
  exists (p ++ q). by rewrite <- app_assoc, <- Hq.
Qed.

Lemma trimWith_fixed step fuel l : step l = None -> trimWith step fuel l = l.
Proof. intros H. destruct fuel; cbn; [done|]. by rewrite H. Qed.

Lemma dropLeadingSpace_parts l r : dropLeadingSpace l = Some r -> exists p, l = p ++ r.
Proof. intros (p & _ & ->)%firstStrip_Some. by exists p. Qed.

Lemma dropTrailingSpace_parts l r : dropTrailingSpace l = Some r -> exists p, l = p ++ r.
Proof. intros (p & _ & ->)%firstStrip_Some. by exists p. Qed.

Lemma trimLeft_fixed l : dropLeadingSpace l = None -> trimLeft l = l.
Proof. intros H. unfold trimLeft. by apply trimWith_fixed. Qed.

Lemma trimRight_fixed l : dropTrailingSpace (rev l) = None -> trimRight l = l.
Proof.
  intros H. unfold trimRight. rewrite trimWith_fixed by done. apply rev_involutive.
Qed.

Lemma trimLeft_done l : dropLeadingSpace (trimLeft l) = None.
Proof.
  unfold trimLeft.
  destruct (trimWith_done dropLeadingSpace (length l) l dropLeadingSpace_shortens)
    as [H|H]; [lia|done|]. by rewrite H.
Qed.

Lemma trimRight_done l : dropTrailingSpace (rev (trimRight l)) = None.
Proof.
  unfold trimRight. rewrite rev_involutive.
  destruct (trimWith_done dropTrailingSpace (length l) (rev l)
              dropTrailingSpace_shortens) as [H|H];
    [by rewrite length_rev|done|]. by rewrite H.
Qed.

Lemma trimRight_prefix l : exists x, l = trimRight l ++ x.
Proof.
  unfold trimRight.
  destruct (trimWith_suffix dropTrailingSpace (length l) (rev l)
              dropTrailingSpace_parts) as [p Hp].
  exists (rev p). rewrite <- rev_app_distr, <- Hp. by rewrite rev_involutive.
Qed.

(** [TrimSpace] leaves a trimmed text as it is. *)
Lemma TrimSpace_idempotent s : TrimSpace (TrimSpace s) = TrimSpace s.
Proof.
  unfold TrimSpace.
  set (t := trimRight (trimLeft (bytes s))).
  rewrite (String.list_ascii_of_string_of_list_ascii t : bytes (ofBytes t) = t).
  assert (Hl : dropLeadingSpace t = None).
  { destruct (trimRight_prefix (trimLeft (bytes s))) as [x Hx]. fold t in Hx.
    pose proof (trimLeft_done (bytes s)) as Hd. rewrite Hx in Hd.
    by apply firstStrip_None_prefix in Hd. }
  rewrite trimLeft_fixed by done.
  rewrite trimRight_fixed; [done|]. apply trimRight_done.
Qed.

Lemma TrimSpace_nonempty s : TrimSpace s <> "" -> s <> "".
Proof. intros H ->. by apply H. Qed.

End Trimming.

(** ** Parsing a message request *)

Section Parsing.
Import GoStrings Gotify.

Lemma validate_trimmed message title priority extras :
  validate {| Message := TrimSpace message; Title := title;
              Priority := priority; Extras := extras |} =
    if String.eqb (TrimSpace message) "" then inl ErrMessageRequired
    else if priority <? 0 then inl ErrInvalidPriority
    else inr {| Message := TrimSpace message; Title := title;
                Priority := priority; Extras := extras |}.
Proof. unfold validate. cbn [Message Priority]. by rewrite TrimSpace_idempotent. Qed.

(** What [validate] lets through, whoever calls it. *)
Lemma validate_inr msg m :
  validate msg = inr m ->
  m = msg /\ TrimSpace (Message m) <> "" /\ 0 <= Priority m.
Proof.
  unfold validate. destruct (String.eqb_spec (TrimSpace (Message msg)) ""); [done|].
  destruct (Z.ltb_spec (Priority msg) 0); [done|]. by intros [= <-].
Qed.

(** X17. What [parseJSON] returns for a body that decodes: a blank message
    is refused with ErrMessageRequired, a negative priority with
    ErrInvalidPriority, and anything else is accepted with the message and
    the title trimmed, the priority defaulting to 5 when the body has none,
    and the extras as decoded.  A body that does not decode is refused. *)
Theorem parseJSON_outcome payload :
  let message := TrimSpace (PayloadMessage payload) in
  let priority := default 5 (PayloadPriority payload) in
  (message = "" -> parseJSON (Some payload) = inl ErrMessageRequired) /\
  (message <> "" -> priority < 0 -> parseJSON (Some payload) = inl ErrInvalidPriority) /\
  (message <> "" -> 0 <= priority ->
     parseJSON (Some payload) =
       inr {| Message := message; Title := TrimSpace (PayloadTitle payload);
              Priority := priority; Extras := PayloadExtras payload |}) /\
  parseJSON None = inl ErrDecode.
Proof.
  cbn zeta. unfold parseJSON. rewrite validate_trimmed. unfold DefaultPriority.
  destruct (String.eqb_spec (TrimSpace (PayloadMessage payload)) "") as [Hm|Hm];
    destruct (Z.ltb_spec (default 5 (PayloadPriority payload)) 0) as [Hp|Hp];
    repeat split; try done; intros; try done; lia.
Qed.

(** X18. A message request accepted by [parseForm] has the trimmed form
    fields as message and title, a message that is not empty, no extras,
    and a priority of at least 0: 5 when the priority field is blank, and
    otherwise the decimal number the trimmed field spells. *)
Theorem parseForm_outcome form m :
  parseForm (Some form) = inr m ->
  Message m = TrimSpace (FormValue form "message") /\ Message m <> "" /\
  Title m = TrimSpace (FormValue form "title") /\
  Extras m = None /\
  0 <= Priority m < 2 ^ 63 /\
  (TrimSpace (FormValue form "priority") = "" -> Priority m = 5) /\
  (TrimSpace (FormValue form "priority") <> "" ->
     Atoi (TrimSpace (FormValue form "priority")) = Some (Priority m)).
Proof.
  unfold parseForm.
  destruct (String.eqb_spec (TrimSpace (FormValue form "priority")) "") as [Hp|Hp];
    cbn [negb].
  - rewrite validate_trimmed.
    destruct (String.eqb_spec (TrimSpace (FormValue form "message")) ""); [done|].
    cbn. intros [= <-]. cbn. repeat split; try done; lia.
  - destruct (Atoi (TrimSpace (FormValue form "priority"))) as [parsed|] eqn:Ha; [|done].
    rewrite validate_trimmed.
    destruct (String.eqb_spec (TrimSpace (FormValue form "message")) ""); [done|].
    destruct (Z.ltb_spec parsed 0); [done|]. intros [= <-]. cbn.
    assert (parsed <= 2 ^ 63 - 1).
    { unfold Atoi in Ha.
      destruct (match bytes _ with [] => None | _ => _ end) as [v|]; [|done].
      destruct (Z.leb_spec (- 2 ^ 63) v), (Z.leb_spec v (2 ^ 63 - 1));
        cbn [andb] in Ha; try done. by injection Ha as <-. }
    repeat split; try done; lia.
Qed.

Lemma parseForm_outcome_witness :
  parseForm (Some (<["message" := [" disk full "] ]>
                     (<["priority" := [" 7 "] ]> (<["title" := ["backup"] ]> ∅)))) =
    inr {| Message := "disk full"; Title := "backup"; Priority := 7; Extras := None |} /\
  parseForm (Some (<["message" := ["x"] ]> (<["priority" := ["-1"] ]> ∅))) =
    inl ErrInvalidPriority /\
  parseForm (Some (<["message" := ["x"] ]> (<["priority" := ["7.5"] ]> ∅))) =
    inl ErrInvalidPriority /\
  parseForm (Some (<["message" := ["x"] ]> ∅)) =
    inr {| Message := "x"; Title := ""; Priority := 5; Extras := None |} /\
  Atoi (TrimSpace " 7 ") = Some 7.
Proof.
  assert (H : parseForm (Some (<["message" := [" disk full "] ]>
                     (<["priority" := [" 7 "] ]> (<["title" := ["backup"] ]> ∅)))) =
    inr {| Message := "disk full"; Title := "backup"; Priority := 7; Extras := None |})
    by (by vm_compute).
  destruct (parseForm_outcome _ _ H) as (_ & _ & _ & _ & _ & _ & Ha).
  split; [exact H|]. split; [by vm_compute|]. split; [by vm_compute|].
  split; [by vm_compute|]. apply Ha. by vm_compute.
Defined.

End Parsing.

Section AcceptedSummary.
Import GoStrings Gotify Main.

(** X19. For a message that [validate] accepts, the summary is never
    empty and does not depend on the app name: the fallback to the app
    name is not taken.  With a blank title and a message of at most 120
    bytes the summary is the trimmed message. *)
Theorem pickSummary_of_accepted msg m appName :
  validate msg = inr m ->
  pickSummary appName (Title m) (Message m) <> "" /\
  (forall appName',
     pickSummary appName' (Title m) (Message m) =
       pickSummary appName (Title m) (Message m)) /\
  (TrimSpace (Title m) = "" -> len (TrimSpace (Message m)) <= 120 ->
     pickSummary appName (Title m) (Message m) = TrimSpace (Message m)).
Proof.
  intros (-> & Hm & _)%validate_inr.
  split; [|split].
  - intros Hs. destruct (String.eqb_spec (TrimSpace (Title msg)) "") as [Ht|Ht].
    + pose proof (pickSummary_message_len appName _ _ Ht Hm) as Hl.
      rewrite Hs in Hl. change (len "") with 0 in Hl. lia.
    + rewrite pickSummary_title in Hs by done. done.
  - intros appName'. unfold pickSummary.
    destruct (negb _); [done|]. by destruct (String.eqb_spec (TrimSpace (Message msg)) "").
  - intros Ht Hl. unfold pickSummary. rewrite Ht. cbn.
    destruct (String.eqb_spec (TrimSpace (Message msg)) ""); [done|].
    by destruct (Z.leb_spec (len (TrimSpace (Message msg))) 120); [|lia].
Qed.

Lemma pickSummary_of_accepted_witness :
  validate {| Message := "disk full"; Title := " "; Priority := 5; Extras := None |} =
    inr {| Message := "disk full"; Title := " "; Priority := 5; Extras := None |} /\
  pickSummary "backup" " " "disk full" = "disk full" /\
  pickSummary "backup" " " " " = "backup".
Proof.
  assert (H : validate {| Message := "disk full"; Title := " "; Priority := 5;
                          Extras := None |} =
              inr {| Message := "disk full"; Title := " "; Priority := 5;
                     Extras := None |}) by (by vm_compute).
  destruct (pickSummary_of_accepted _ _ "backup" H) as (_ & _ & Hs).
  split; [exact H|]. split; [|by vm_compute].
  exact (Hs ltac:(by vm_compute) ltac:(by vm_compute)).
Defined.

End AcceptedSummary.

(** ** The message handler *)

Section Handler.
Import GoStrings Server.


End Handler.

(** ** Validation of the configuration *)

Section ConfigSeverity.
Import GoStrings Config.

Lemma canonicalSeverity_values input :
  canonicalSeverity input = "info" \/ canonicalSeverity input = "warning" \/
  canonicalSeverity input = "critical".
Proof.
  unfold canonicalSeverity.
  destruct (_ || _); [by right; left|]. destruct (_ || _); [by right; right|]. by left.
Qed.

(** X21. [canonicalSeverity] always returns info, warning or critical;
    its result passes [validateSeverity] and is left as it is by a second
    call.  On a spelling that [validateSeverity] accepts it returns the
    trimmed, lowered spelling with warn and crit written out. *)
Theorem canonicalSeverity_canonical input :
  Main.canonicalSeverity (canonicalSeverity input) /\
  validateSeverity (canonicalSeverity input) = None /\
  canonicalSeverity (canonicalSeverity input) = canonicalSeverity input /\
  (validateSeverity input = None ->
     let s := ToLowerText (TrimSpace input) in
     canonicalSeverity input =
       if String.eqb s "warn" then "warning"
       else if String.eqb s "crit" then "critical" else s).
Proof.
  split; [exact (canonicalSeverity_values input)|].
  split; [|split].
  - destruct (canonicalSeverity_values input) as [->|[->| ->]]; by vm_compute.
  - destruct (canonicalSeverity_values input) as [->|[->| ->]]; by vm_compute.
  - cbn zeta. unfold validateSeverity, canonicalSeverity.
    set (s := ToLowerText (TrimSpace input)).
    destruct (String.eqb_spec s "info") as [->|]; [done|].
    destruct (String.eqb_spec s "warn") as [->|]; [done|].
    destruct (String.eqb_spec s "warning") as [->|]; [done|].
    destruct (String.eqb_spec s "crit") as [->|]; [done|].
    destruct (String.eqb_spec s "critical") as [->|]; [done|].
    done.
Qed.

Lemma normalizeLoop_ok order (m : gmap Z string) :
  NoDup order ->
  (forall k v, k ∈ order -> m !! k = Some v -> acceptable k v) ->
  (normalizeLoop order m).1 = None /\
  forall k, (normalizeLoop order m).2 !! k =
    if bool_decide (k ∈ order) then canonicalSeverity <$> m !! k else m !! k.
Proof.
  revert m. induction order as [|prio order IH]; intros m Hnd Hok.
  - cbn. split; [done|]. intros k. by rewrite bool_decide_eq_false_2 by apply not_elem_of_nil.
  - apply NoDup_cons in Hnd as [Hnotin Hnd]. cbn [normalizeLoop].
    destruct (m !! prio) as [sev|] eqn:Hprio.
    + destruct (Hok prio sev) as [Hk Hv]; [apply list_elem_of_here|done|].
      destruct (Z.ltb_spec prio 0); [lia|]. rewrite Hv.
      destruct (IH (<[prio := canonicalSeverity sev]> m) Hnd) as [Herr Hmap].
      { intros k v Hin Hkv. rewrite lookup_insert_ne in Hkv by (by intros ->).
        apply Hok; [by apply list_elem_of_further|done]. }
      split; [done|]. intros k. rewrite Hmap.
      destruct (decide (k = prio)) as [->|Hne].
      * rewrite bool_decide_eq_false_2 by done.
        rewrite bool_decide_eq_true_2 by apply list_elem_of_here.
        by rewrite lookup_insert_eq, Hprio.
      * rewrite lookup_insert_ne by done.
        destruct (decide (k ∈ order)) as [Hin|Hin].
        -- rewrite !bool_decide_eq_true_2; [done| |done]. by apply list_elem_of_further.
        -- rewrite !bool_decide_eq_false_2; [done| |done].
           intros [->|?]%elem_of_cons; done.
    + destruct (IH m Hnd) as [Herr Hmap].
      { intros k v Hin Hkv. apply Hok; [by apply list_elem_of_further|done]. }
      split; [done|]. intros k. rewrite Hmap.
      destruct (decide (k = prio)) as [->|Hne].
      * rewrite bool_decide_eq_false_2 by done.
        rewrite bool_decide_eq_true_2 by apply list_elem_of_here. by rewrite Hprio.
      * destruct (decide (k ∈ order)) as [Hin|Hin].
        -- rewrite !bool_decide_eq_true_2; [done| |done]. by apply list_elem_of_further.
        -- rewrite !bool_decide_eq_false_2; [done| |done].
           intros [->|?]%elem_of_cons; done.
Qed.

Lemma normalizeLoop_err order (m : gmap Z string) k v :
  NoDup order -> k ∈ order -> m !! k = Some v -> ~ acceptable k v ->
  (normalizeLoop order m).1 <> None.
Proof.
  revert m. induction order as [|prio order IH]; intros m Hnd Hin Hkv Hbad.
  { by apply elem_of_nil in Hin. }
  apply NoDup_cons in Hnd as [Hnotin Hnd]. cbn [normalizeLoop].
  destruct (decide (k = prio)) as [->|Hne].
  - rewrite Hkv. destruct (Z.ltb_spec prio 0); [done|].
    destruct (validateSeverity v) eqn:Hv; [done|]. exfalso. apply Hbad. by split.
  - apply elem_of_cons in Hin as [?|Hin]; [done|].
    destruct (m !! prio) as [sev|] eqn:Hprio; [|by apply IH].
    destruct (Z.ltb_spec prio 0); [done|].
    destruct (validateSeverity sev); [done|].
    apply IH; [done|done| |done]. by rewrite lookup_insert_ne.
Qed.

Lemma acceptable_dec k v : acceptable k v \/ ~ acceptable k v.
Proof.
  unfold acceptable. destruct (Z.le_gt_cases 0 k), (validateSeverity v);
    [right|left|right|right]; try done; intros [? ?]; (done || lia).
Qed.

Lemma rangeOrder_NoDup (m : gmap Z string) order : Main.rangeOrder m order -> NoDup order.
Proof. unfold Main.rangeOrder. intros ->. apply NoDup_fst_map_to_list. Qed.

Lemma rangeOrder_intro (m : gmap Z string) order :
  NoDup order -> (forall k, k ∈ order <-> is_Some (m !! k)) -> Main.rangeOrder m order.
Proof.
  intros Hnd Hin. unfold Main.rangeOrder.
  apply NoDup_Permutation; [done|apply NoDup_fst_map_to_list|].
  intros k. rewrite Hin, list_elem_of_fmap. split.
  - intros [v Hv]. exists (k, v). split; [done|]. by apply elem_of_map_to_list.
  - intros ([k' v] & -> & Hkv%elem_of_map_to_list). by exists v.
Qed.

(** The verdict of the loop does not depend on the order of the visit. *)
Lemma normalizeLoop_verdict order (m : gmap Z string) :
  Main.rangeOrder m order ->
  (normalizeLoop order m).1 = None <-> forall k v, m !! k = Some v -> acceptable k v.
Proof.
  intros Hord. pose proof (rangeOrder_NoDup m order Hord) as Hnd. split.
  - intros Hnone k v Hkv. destruct (acceptable_dec k v) as [|Hbad]; [done|].
    exfalso. eapply normalizeLoop_err; [done| |done|done|done].
    apply (rangeOrder_elem m order k Hord). by eexists.
  - intros Hall. apply normalizeLoop_ok; [done|]. intros k v _. apply Hall.
Qed.

Lemma normalizeLoop_result order (m : gmap Z string) :
  Main.rangeOrder m order -> (normalizeLoop order m).1 = None ->
  (normalizeLoop order m).2 = canonicalSeverity <$> m.
Proof.
  intros Hord Hnone. pose proof (rangeOrder_NoDup m order Hord) as Hnd.
  destruct (normalizeLoop_ok order m Hnd) as [_ Hmap].
  { intros k v _ Hkv. by apply (normalizeLoop_verdict order m Hord). }
  apply map_eq. intros k. rewrite Hmap, lookup_fmap.
  destruct (decide (k ∈ order)) as [Hk|Hk].
  - by rewrite bool_decide_eq_true_2.
  - rewrite bool_decide_eq_false_2 by done.
    destruct (m !! k) eqn:E; [|done]. exfalso.
    apply Hk, (rangeOrder_elem m order k Hord). by eexists.
Qed.

Lemma normalizeSeverityMap_loop order (m : gmap Z string) :
  normalizeSeverityMap order m = normalizeLoop order m \/
  (m = ∅ /\ normalizeSeverityMap order m = (None, ∅)).
Proof.
  unfold normalizeSeverityMap. destruct (Nat.eqb_spec (size m) 0) as [Hz|Hz]; [|by left].
  right. by apply map_size_empty_iff in Hz as ->.
Qed.

Lemma normalizeSeverityMap_values order (m : gmap Z string) k v :
  Main.rangeOrder m order -> (normalizeSeverityMap order m).1 = None ->
  (normalizeSeverityMap order m).2 !! k = Some v -> 0 <= k /\ Main.canonicalSeverity v.
Proof.
  intros Hord. destruct (normalizeSeverityMap_loop order m) as [->|[-> ->]].
  - intros Hnone. rewrite (normalizeLoop_result order m Hord Hnone), lookup_fmap.
    destruct (m !! k) as [v0|] eqn:Hk; [|done]. intros [= <-].
    split; [|apply canonicalSeverity_values].
    by destruct (proj1 (normalizeLoop_verdict order m Hord) Hnone k v0 Hk).
  - intros _ Hkv. cbn [snd] in Hkv. by rewrite lookup_empty in Hkv.
Qed.

(** X22. Whatever order the loop visits the keys in, [normalizeSeverityMap]
    returns no error exactly when every key is at least 0 and every value
    is one of the five accepted spellings; the map is then left with each
    value replaced by its canonical form, so that every key is at least 0
    and every value is info, warning or critical. *)
Theorem normalizeSeverityMap_outcome order (m : gmap Z string) :
  Main.rangeOrder m order ->
  ((normalizeSeverityMap order m).1 = None <->
     forall k v, m !! k = Some v -> 0 <= k /\ validateSeverity v = None) /\
  ((normalizeSeverityMap order m).1 = None ->
     (normalizeSeverityMap order m).2 = canonicalSeverity <$> m /\
     forall k v, (normalizeSeverityMap order m).2 !! k = Some v ->
       0 <= k /\ Main.canonicalSeverity v).
Proof.
  intros Hord. split.
  - destruct (normalizeSeverityMap_loop order m) as [->|[-> ->]].
    + apply (normalizeLoop_verdict order m Hord).
    + split; [|done]. intros _ k v Hkv. by rewrite lookup_empty in Hkv.
  - intros Hnone. split.
    + destruct (normalizeSeverityMap_loop order m) as [E|[-> ->]].
      * rewrite E in *. by apply normalizeLoop_result.
      * by rewrite fmap_empty.
    + intros k v. by apply normalizeSeverityMap_values.
Qed.

Lemma spelledSeverityMap_order : Main.rangeOrder spelledSeverityMap [8; 0; 4].
Proof.
  apply rangeOrder_intro.
  - apply (bool_decide_unpack (NoDup [8; 0; 4])). by vm_compute.
  - intros k. split.
    + intros Hk. set_unfold in Hk. destruct Hk as [->|[->|[->|[]]]]; by eexists.
    + intros [v Hkv]. unfold spelledSeverityMap in Hkv.
      repeat (apply lookup_insert_Some in Hkv as [[<- _]|[_ Hkv]]; [set_solver|]).
      by rewrite lookup_empty in Hkv.
Defined.

Lemma normalizeSeverityMap_outcome_witness :
  Main.rangeOrder spelledSeverityMap [8; 0; 4] /\
  (normalizeSeverityMap [8; 0; 4] spelledSeverityMap).1 = None /\
  (normalizeSeverityMap [8; 0; 4] spelledSeverityMap).2 !! 4 = Some "warning" /\
  (normalizeSeverityMap [8; 0; 4] spelledSeverityMap).2 !! 8 = Some "critical" /\
  (normalizeSeverityMap [8; 0; 4] (<[4 := "severe"]> spelledSeverityMap)).1 =
    Some ErrInvalidSeverity.
Proof.
  destruct (normalizeSeverityMap_outcome [8; 0; 4] spelledSeverityMap
              spelledSeverityMap_order) as [_ H].
  assert (Hnone : (normalizeSeverityMap [8; 0; 4] spelledSeverityMap).1 = None)
    by (by vm_compute).
  destruct (H Hnone) as [Hmap _].
  split; [exact spelledSeverityMap_order|]. split; [exact Hnone|].
  rewrite Hmap, !lookup_fmap. repeat split; by vm_compute.
Defined.

End ConfigSeverity.

Section ValidatedConfig.
Import GoStrings Config Main.

(** What [validateDefaults] leaves when it returns no error. *)
Lemma validateDefaults_ok order defaults :
  rangeOrder (DefaultSeverityFromPriority defaults) order ->
  (validateDefaults order defaults).1 = None ->
  let defaults' := (validateDefaults order defaults).2 in
  DefaultSeverityFromPriority defaults' =
    Config.canonicalSeverity <$> DefaultSeverityFromPriority defaults /\
  DefaultSeverityFromPriority defaults <> ∅ /\
  0 < TTL defaults' /\
  TrimSpace (Main.DefaultAlertName defaults') <> "" /\
  DefaultLabels defaults' = DefaultLabels defaults.
Proof.
  intros Hord. unfold validateDefaults.
  destruct (Nat.eqb_spec (size (DefaultSeverityFromPriority defaults)) 0) as [|Hz];
    [done|].
  pose proof (normalizeLoop_result order _ Hord) as Hres.
  destruct (normalizeLoop order (DefaultSeverityFromPriority defaults))
    as [[err|] mapping]; [done|].
  destruct (Z.leb_spec (TTL defaults) 0) as [|Httl]; [done|].
  intros _. cbn. split; [by apply Hres|]. split.
  { intros He. by rewrite He, map_size_empty in Hz. }
  split; [done|]. split; [|done].
  destruct (String.eqb_spec (TrimSpace (Main.DefaultAlertName defaults)) "");
    [by vm_compute|done].
Qed.

(** X23. With defaults that [validateDefaults] accepts and a per-app
    severity map that [normalizeSeverityMap] accepts, every alert the
    forwarder builds has a severity label that is info, warning or
    critical, an alertname label that is not blank, and an end after its
    start. *)
Theorem validated_alert_wellformed order defaults appOrder appMap app msg
    messageIdentifier now :
  rangeOrder (DefaultSeverityFromPriority defaults) order ->
  (validateDefaults order defaults).1 = None ->
  rangeOrder appMap appOrder ->
  (normalizeSeverityMap appOrder appMap).1 = None ->
  Server.SeverityFromPriority app = (normalizeSeverityMap appOrder appMap).2 ->
  let alert :=
    newForwarder (validateDefaults order defaults).2 app msg messageIdentifier now in
  (exists v, Alertmanager.Labels alert !! "severity" = Some v /\
             Main.canonicalSeverity v) /\
  (exists n, Alertmanager.Labels alert !! "alertname" = Some n /\ TrimSpace n <> "") /\
  Alertmanager.StartsAt alert < Alertmanager.EndsAt alert.
Proof.
  intros Hord Hok HappOrd HappOk Happ.
  destruct (validateDefaults_ok order defaults Hord Hok) as (Hmap & Hne & Httl & Hname & _).
  set (defaults' := (validateDefaults order defaults).2) in *.
  cbn zeta. unfold newForwarder.
  cbn [Alertmanager.Labels Alertmanager.StartsAt Alertmanager.EndsAt].
  split; [|split; [|lia]].
  - rewrite !lookup_insert_ne by done. rewrite lookup_insert_eq.
    eexists. split; [done|].
    unfold severityMapFor.
    destruct (Nat.ltb_spec 0 (size (Server.SeverityFromPriority app))) as [Hs|Hs].
    + assert (Hne' : Server.SeverityFromPriority app <> ∅).
      { intros He. rewrite He, map_size_empty in Hs. lia. }
      destruct (severityForPriority_value _ (Gotify.Priority msg) Hne') as [k Hk].
      rewrite Happ in Hk |- *.
      by destruct (normalizeSeverityMap_values _ _ _ _ HappOrd HappOk Hk).
    + assert (Hne' : DefaultSeverityFromPriority defaults' <> ∅).
      { rewrite Hmap. intros He. by apply fmap_empty_inv in He. }
      destruct (severityForPriority_value _ (Gotify.Priority msg) Hne') as [k Hk].
      rewrite Hmap in Hk |- *. rewrite lookup_fmap in Hk.
      destruct (DefaultSeverityFromPriority defaults !! k); [|done].
      injection Hk as <-. apply canonicalSeverity_values.
  - rewrite !lookup_insert_ne by done. rewrite lookup_insert_eq.
    eexists. split; [done|]. unfold alertNameFor.
    destruct (String.eqb_spec (TrimSpace (Server.AlertName app)) "") as [|Hn];
      cbn [negb]; [done|].
    by rewrite TrimSpace_idempotent.
Qed.

Lemma validated_alert_wellformed_witness :
  rangeOrder spelledSeverityMap [8; 0; 4] /\
  (validateDefaults [8; 0; 4] spelledDefaults).1 = None /\
  Alertmanager.Labels
    (newForwarder (validateDefaults [8; 0; 4] spelledDefaults).2 plainApp
       plainMessage 1 0) !! "severity" = Some "warning" /\
  Alertmanager.Labels
    (newForwarder (validateDefaults [8; 0; 4] spelledDefaults).2 plainApp
       plainMessage 1 0) !! "alertname" = Some "GotilertNotification" /\
  Alertmanager.StartsAt
    (newForwarder (validateDefaults [8; 0; 4] spelledDefaults).2 plainApp
       plainMessage 1 0) <
  Alertmanager.EndsAt
    (newForwarder (validateDefaults [8; 0; 4] spelledDefaults).2 plainApp
       plainMessage 1 0).
Proof.
  assert (Hok : (validateDefaults [8; 0; 4] spelledDefaults).1 = None)
    by (by vm_compute).
  assert (Happ : rangeOrder (∅ : gmap Z string) []).
  { unfold rangeOrder. by rewrite map_to_list_empty. }
  destruct (validated_alert_wellformed [8; 0; 4] spelledDefaults [] ∅ plainApp
              plainMessage 1 0 spelledSeverityMap_order Hok Happ eq_refl eq_refl)
    as (_ & _ & Hlt).
  split; [exact spelledSeverityMap_order|]. split; [exact Hok|].
  split; [by vm_compute|]. split; [by vm_compute|exact Hlt].
Defined.

(** X24. [validateDefaults] returns no error exactly when the default
    severity map is not empty, each of its keys is at least 0, each of its
    values is an accepted spelling, and the TTL is positive.  The defaults
    are then left with the severities in canonical form, a blank alert
    name replaced by GotilertNotification, and the rest as it was. *)
Theorem validateDefaults_outcome order defaults :
  rangeOrder (DefaultSeverityFromPriority defaults) order ->
  ((validateDefaults order defaults).1 = None <->
     DefaultSeverityFromPriority defaults <> ∅ /\
     (forall k v, DefaultSeverityFromPriority defaults !! k = Some v ->
        0 <= k /\ validateSeverity v = None) /\
     0 < TTL defaults) /\
  ((validateDefaults order defaults).1 = None ->
     (validateDefaults order defaults).2 =
       {| Main.DefaultAlertName :=
            if String.eqb (TrimSpace (Main.DefaultAlertName defaults)) ""
            then "GotilertNotification" else Main.DefaultAlertName defaults;
          TTL := TTL defaults;
          DefaultSeverityFromPriority :=
            Config.canonicalSeverity <$> DefaultSeverityFromPriority defaults;
          DefaultLabels := DefaultLabels defaults |}).
Proof.
  intros Hord.
  pose proof (normalizeLoop_verdict order _ Hord) as Hverdict.
  pose proof (normalizeLoop_result order _ Hord) as Hres.
  unfold validateDefaults.
  destruct (Nat.eqb_spec (size (DefaultSeverityFromPriority defaults)) 0) as [Hz|Hz].
  { apply map_size_empty_iff in Hz. cbn [fst snd]. split; [|done].
    split; [done|]. by intros [? _]. }
  assert (Hne : DefaultSeverityFromPriority defaults <> ∅).
  { intros He. by rewrite He, map_size_empty in Hz. }
  destruct (normalizeLoop order (DefaultSeverityFromPriority defaults))
    as [[err|] mapping]; cbn [fst snd] in *.
  { split; [|done]. split; [done|]. intros (_ & Hall & _).
    by apply Hverdict in Hall. }
  destruct (Z.leb_spec (TTL defaults) 0) as [Httl|Httl]; cbn [fst snd].
  { split; [|done]. split; [done|]. intros (_ & _ & ?). lia. }
  split.
  - split; [|done]. intros _. split; [done|]. split; [|done]. by apply Hverdict.
  - intros _. rewrite Hres by done. done.
Qed.

Lemma validateDefaults_outcome_witness :
  (validateDefaults [8; 0; 4] spelledDefaults).1 = None /\
  Main.DefaultAlertName (validateDefaults [8; 0; 4] spelledDefaults).2 =
    "GotilertNotification" /\
  (validateDefaults [8; 0; 4]
     {| Main.DefaultAlertName := "x"; TTL := 0;
        DefaultSeverityFromPriority := spelledSeverityMap;
        DefaultLabels := ∅ |}).1 = Some ErrDefaultsTTLNonPositive /\
  (validateDefaults []
     {| Main.DefaultAlertName := "x"; TTL := 60;
        DefaultSeverityFromPriority := ∅;
        DefaultLabels := ∅ |}).1 = Some ErrDefaultsSeverityMapRequired.
Proof.
  destruct (validateDefaults_outcome [8; 0; 4] spelledDefaults
              spelledSeverityMap_order) as [_ H].
  assert (Hok : (validateDefaults [8; 0; 4] spelledDefaults).1 = None)
    by (by vm_compute).
  split; [exact Hok|]. split; [by rewrite (H Hok)|]. split; by vm_compute.
Defined.

End ValidatedConfig.

(** ** Dispatch on the content type *)

Section Dispatch.
Import GoStrings Gotify.

(** A request as the handler wants it: trimmed texts, a message, a
    priority of at least 0. *)
Lemma validate_wellformed message title priority extras m :
  validate {| Message := TrimSpace message; Title := TrimSpace title;
              Priority := priority; Extras := extras |} = inr m ->
  TrimSpace (Message m) = Message m /\ Message m <> "" /\
  TrimSpace (Title m) = Title m /\ 0 <= Priority m.
Proof.
  intros (-> & Hm & Hp)%validate_inr. cbn [Message Title Priority] in *.
  rewrite !TrimSpace_idempotent in *. done.
Qed.

(** X26. Whatever the content type and whatever the decoders make of the
    request, a request that [ParseMessageRequest] accepts has a message
    and a title that are trimmed, a message that is not empty and a
    priority of at least 0. *)
Theorem ParseMessageRequest_accepted contentType parsedType decoded form m :
  ParseMessageRequest contentType parsedType decoded form = inr m ->
  TrimSpace (Message m) = Message m /\ Message m <> "" /\
  TrimSpace (Title m) = Title m /\ 0 <= Priority m.
Proof.
  intros H.
  assert (Hjson : parseJSON decoded = inr m ->
            TrimSpace (Message m) = Message m /\ Message m <> "" /\
            TrimSpace (Title m) = Title m /\ 0 <= Priority m).
  { unfold parseJSON. destruct decoded as [payload|]; [|done].
    apply validate_wellformed. }
  assert (Hform : parseForm form = inr m ->
            TrimSpace (Message m) = Message m /\ Message m <> "" /\
            TrimSpace (Title m) = Title m /\ 0 <= Priority m).
  { unfold parseForm. destruct form as [values|]; [|done].
    destruct (negb _); [|apply validate_wellformed].
    destruct (Atoi _); [apply validate_wellformed|done]. }
  assert (Hwf : TrimSpace (Message m) = Message m /\ Message m <> "" /\
                TrimSpace (Title m) = Title m /\ 0 <= Priority m).
  { unfold ParseMessageRequest in H.
    destruct (negb (String.eqb contentType "")).
    - destruct parsedType as [parsedType|]; [|done].
      destruct (String.eqb _ "application/json"); [by apply Hjson|].
      destruct (_ || _); [by apply Hform|done].
    - by apply Hform. }
  exact Hwf.
Qed.

Lemma ParseMessageRequest_accepted_witness :
  ParseMessageRequest "Application/JSON; charset=utf-8" (Some "application/json")
    (Some {| PayloadMessage := " disk full "; PayloadTitle := " backup";
             PayloadPriority := None; PayloadExtras := None |}) None =
    inr {| Message := "disk full"; Title := "backup"; Priority := 5;
           Extras := None |} /\
  TrimSpace "disk full" = "disk full" /\
  ParseMessageRequest "text/plain" (Some "text/plain") None None =
    inl ErrUnsupportedContentType.
Proof.
  assert (H : ParseMessageRequest "Application/JSON; charset=utf-8"
                (Some "application/json")
                (Some {| PayloadMessage := " disk full "; PayloadTitle := " backup";
                         PayloadPriority := None; PayloadExtras := None |}) None =
              inr {| Message := "disk full"; Title := "backup"; Priority := 5;
                     Extras := None |}) by (by vm_compute).
  destruct (ParseMessageRequest_accepted _ _ _ _ _ H) as (Ht & _).
  split; [exact H|]. split; [exact Ht|]. by vm_compute.
Defined.

End Dispatch.
